(** * merged_source_dumper: a verified model of [collect_source_files]

    The program walks a directory tree, keeps the files whose name ends with
    one of a fixed set of extensions, sorts their paths and writes one
    document holding a delimiter and the contents of each of them.

    The development models CPython on a POSIX platform whose file system
    encoding is UTF-8:
    - a Python [str] is a [string] over an alphabet of 256 code points, a
      character standing for a code point and a greater character for a
      greater code point, so that [String.leb] is the order in which Python
      compares [str] values: the characters 0 to 127 are ASCII, the
      characters 128 to 191 are the Latin-1 letters U+00C0 to U+00FF, and
      the characters 192 to 255 are the lone surrogates U+DCC0 to U+DCFF,
      which is how Python reads the bytes C0 to FF of a file name that is
      not UTF-8 ([surrogateescape]). Text with other code points is outside
      the model;
    - a [str] with a surrogate cannot be encoded as UTF-8: writing it to the
      document raises [UnicodeEncodeError];
    - the file system is a tree of directories and regular files, the
      process's working directory being its root. It has no links and no
      special files, every directory can be listed, and every file can be
      opened for writing; trees with such entries are outside the model;
    - [open(path, "r", encoding="utf-8")] leaves [newline] at its default, so
      reading translates the line endings (universal newlines);
    - [open(path, "w", encoding="utf-8")] truncates or creates the file, and
      writing translates nothing ([os.linesep] is one line feed);
    - the device does not fail: a write of text that can be encoded
      succeeds. *)

From Stdlib Require Import String Ascii List Bool Arith NArith Lia.
From Stdlib Require Import Permutation Sorted Mergesort Orders.
Import ListNotations.
Local Open Scope string_scope.
Local Open Scope list_scope.

(** ** Python strings *)

Module PyStr.

Definition NUL : ascii := "000"%char.
Definition TAB : ascii := "009"%char.
Definition LF : ascii := "010"%char.
Definition CR : ascii := "013"%char.
Definition slash : ascii := "/"%char.
Definition quote : ascii := "039"%char.
Definition double_quote : ascii := "034"%char.
Definition backslash : ascii := "092"%char.

(** The three parts of the alphabet. *)
Definition is_ascii (c : ascii) : bool :=
  match c with Ascii _ _ _ _ _ _ _ b7 => negb b7 end.

Definition is_surrogate (c : ascii) : bool :=
  match c with Ascii _ _ _ _ _ _ b6 b7 => b7 && b6 end.

(** [s.encode("utf-8")] does not raise: [s] has no surrogate. *)
Fixpoint encodable (s : string) : bool :=
  match s with
  | "" => true
  | String c rest => negb (is_surrogate c) && encodable rest
  end.

(** [len(os.fsencode(s))]: a Latin-1 letter takes two bytes, a surrogate
    is the one byte it came from. *)
Fixpoint byte_length (s : string) : nat :=
  match s with
  | "" => 0
  | String c rest =>
      (if is_ascii c || is_surrogate c then 1 else 2) + byte_length rest
  end.

(** The one-character string "\n". *)
Definition nl : string := String LF "".

(** [s.endswith(suffix)] *)
Fixpoint endswith (s suffix : string) : bool :=
  if String.eqb s suffix then true
  else match s with
       | "" => false
       | String _ rest => endswith rest suffix
       end.

(** [s.startswith(prefix)] *)
Fixpoint startswith (s pre : string) {struct pre} : bool :=
  match pre with
  | "" => true
  | String c pre' =>
      match s with
      | "" => false
      | String d s' => Ascii.eqb d c && startswith s' pre'
      end
  end.

(** [sep in s], for a one-character [sep] *)
Fixpoint has_char (sep : ascii) (s : string) : bool :=
  match s with
  | "" => false
  | String c rest => if Ascii.eqb c sep then true else has_char sep rest
  end.

(** [s.split(sep)], for a one-character [sep] *)
Fixpoint split (sep : ascii) (s : string) : list string :=
  match s with
  | "" => [""]
  | String c rest =>
      if Ascii.eqb c sep then "" :: split sep rest
      else match split sep rest with
           | [] => [String c ""]
           | h :: t => String c h :: t
           end
  end.

(** [x in s]: [x] occurs in [s] as a substring *)
Fixpoint contains (s x : string) : bool :=
  if startswith s x then true
  else match s with
       | "" => false
       | String _ rest => contains rest x
       end.

(** The translation that reading in text mode with [newline=None]
    applies: "\r\n" and a lone "\r" both become "\n". *)
Fixpoint universal_newlines (s : string) : string :=
  match s with
  | "" => ""
  | String c rest =>
      if Ascii.eqb c CR then
        match rest with
        | String d rest' =>
            if Ascii.eqb d LF then String LF (universal_newlines rest')
            else String LF (universal_newlines rest)
        | "" => String LF ""
        end
      else String c (universal_newlines rest)
  end.

(** The last character of a string. *)
Fixpoint last_char (s : string) : option ascii :=
  match s with
  | "" => None
  | String c "" => Some c
  | String _ rest => last_char rest
  end.


(** [s[n:]] *)
Fixpoint skip (n : nat) (s : string) : string :=
  match n, s with
  | S n', String _ rest => skip n' rest
  | _, _ => s
  end.

(** [str(n)] *)
Definition digit (n : nat) : ascii := ascii_of_nat (48 + n).

Fixpoint decimal_from (fuel n : nat) (acc : string) : string :=
  match fuel with
  | 0 => acc
  | S fuel' =>
      let acc' := String (digit (n mod 10)) acc in
      if Nat.eqb (n / 10) 0 then acc' else decimal_from fuel' (n / 10) acc'
  end.

Definition str_of_nat (n : nat) : string := decimal_from (S n) n "".

(** The two hexadecimal digits of a character, in lower case. *)
Definition hex_digit (n : nat) : ascii :=
  if Nat.ltb n 10 then ascii_of_nat (48 + n) else ascii_of_nat (87 + n).

Definition hex2 (c : ascii) : string :=
  let n := nat_of_ascii c in
  String (hex_digit (n / 16)) (String (hex_digit (n mod 16)) "").

(** [repr(s)]: single quotes, unless [s] holds one and no double quote. *)
Definition repr_char (q c : ascii) : string :=
  if Ascii.eqb c q || Ascii.eqb c backslash then
    String backslash (String c "")
  else if Ascii.eqb c LF then "\n"
  else if Ascii.eqb c CR then "\r"
  else if Ascii.eqb c TAB then "\t"
  else if Nat.ltb (nat_of_ascii c) 32 || Nat.eqb (nat_of_ascii c) 127 then
    "\x" ++ hex2 c
  else if is_surrogate c then "\udc" ++ hex2 c
  else String c "".

Fixpoint repr_chars (q : ascii) (s : string) : string :=
  match s with
  | "" => ""
  | String c rest => repr_char q c ++ repr_chars q rest
  end.

Definition repr (s : string) : string :=
  let q :=
    if has_char quote s && negb (has_char double_quote s)
    then double_quote else quote in
  String q (repr_chars q s) ++ String q "".

(** Where the first surrogate of a string is, and how many follow one
    another from the start of a string. *)
Fixpoint first_surrogate (s : string) : nat :=
  match s with
  | "" => 0
  | String c rest => if is_surrogate c then 0 else S (first_surrogate rest)
  end.

Fixpoint surrogates (s : string) : nat :=
  match s with
  | "" => 0
  | String c rest => if is_surrogate c then S (surrogates rest) else 0
  end.

(** [str(e)] for the [UnicodeEncodeError] that [s.encode("utf-8")]
    raises. *)
Definition encode_error_message (s : string) : string :=
  let pos := first_surrogate s in
  match skip pos s with
  | "" => ""
  | String c rest =>
      if Nat.eqb (surrogates rest) 0 then
        "'utf-8' codec can't encode character '\udc" ++ hex2 c
        ++ "' in position " ++ str_of_nat pos
        ++ ": surrogates not allowed"
      else
        "'utf-8' codec can't encode characters in position "
        ++ str_of_nat pos ++ "-" ++ str_of_nat (pos + surrogates rest)
        ++ ": surrogates not allowed"
  end.

End PyStr.

(** ** [posixpath] *)

Module PosixPath.
Import PyStr.

(** What [join] puts before a relative name. *)
Definition dir_prefix (a : string) : string :=
  if orb (String.eqb a "") (endswith a "/") then a else a ++ "/".

(** [os.path.join(a, b)] with two arguments *)
Definition join (a b : string) : string :=
  if startswith b "/" then b
  else if orb (String.eqb a "") (endswith a "/") then a ++ b
  else a ++ "/" ++ b.

(** [os.path.basename(p)]: what follows the last slash. *)
Definition basename (p : string) : string := last (split slash p) "".

End PosixPath.

(** ** The file system *)

Module FS.
Import PyStr PosixPath.

(** What a file holds: text (the UTF-8 decoding of its bytes, in which
    there is no surrogate), or nothing that can be read as text (no
    permission, undecodable bytes, ...), in which case opening or reading
    it raises an exception [e] whose [str(e)] is [msg]. *)
Inductive content : Type :=
| Text (raw : string)
| Unreadable (msg : string).

#[local] Set Warnings "-register-all".

(** A directory lists its entries in the order in which the operating
    system enumerates them. *)
Inductive node : Type :=
| File (c : content)
| Dir (entries : list (string * node)).

Definition entries : Type := list (string * node).

(** The state of the file system is its root directory, which is also the
    working directory of the process. *)
Definition filesystem : Type := node.

(** The place of an entry: the names that lead to it from the root. *)
Definition loc : Type := list string.

Inductive kind : Type := KFile | KDir.

Definition kind_of (nd : node) : kind :=
  match nd with File _ => KFile | Dir _ => KDir end.

Definition is_dir (nd : node) : bool :=
  match nd with File _ => false | Dir _ => true end.

Fixpoint lookup_entry (n : string) (es : entries) : option node :=
  match es with
  | [] => None
  | (m, nd) :: rest => if String.eqb m n then Some nd else lookup_entry n rest
  end.

Fixpoint node_at (nd : node) (l : loc) : option node :=
  match l with
  | [] => Some nd
  | n :: rest =>
      match nd with
      | File _ => None
      | Dir es =>
          match lookup_entry n es with
          | Some child => node_at child rest
          | None => None
          end
      end
  end.

Definition kind_at (fs : filesystem) (l : loc) : option kind :=
  option_map kind_of (node_at fs l).

(** Path resolution, one component at a time: every component is looked
    up in a directory; an empty component and "." stay there, ".." goes to
    the parent (the root is its own parent). *)
Fixpoint walk_path (fs : filesystem) (cur : loc) (comps : list string)
  : option loc :=
  match comps with
  | [] => Some cur
  | c :: rest =>
      match kind_at fs cur with
      | Some KDir =>
          if orb (String.eqb c "") (String.eqb c ".") then
            walk_path fs cur rest
          else if String.eqb c ".." then
            walk_path fs (removelast cur) rest
          else
            match kind_at fs (cur ++ [c]) with
            | Some _ => walk_path fs (cur ++ [c]) rest
            | None => None
            end
      | _ => None
      end
  end.

(** The place a path names; the empty path names nothing. *)
Definition resolve (fs : filesystem) (p : string) : option loc :=
  if String.eqb p "" then None else walk_path fs [] (split slash p).

(** The names a directory entry can have. *)
Definition valid_name (n : string) : bool :=
  negb (String.eqb n "") && negb (String.eqb n ".")
  && negb (String.eqb n "..") && negb (has_char slash n).

Definition valid (n : string) : Prop := valid_name n = true.

Definition mem_string (x : string) (l : list string) : bool :=
  existsb (String.eqb x) l.

Fixpoint distinct (l : list string) : bool :=
  match l with
  | [] => true
  | x :: rest => negb (mem_string x rest) && distinct rest
  end.

(** A well-formed tree: in every directory the names are valid and
    pairwise different. *)
Fixpoint wf_node (nd : node) : bool :=
  match nd with
  | File _ => true
  | Dir es =>
      forallb (fun e => valid_name (fst e)) es
      && distinct (map fst es)
      && forallb (fun e => wf_node (snd e)) es
  end.

Definition wf (fs : filesystem) : bool := is_dir fs && wf_node fs.

(** *** [os.walk] *)

Definition dirnames (es : entries) : list string :=
  map fst (filter (fun e => is_dir (snd e)) es).

Definition filenames (es : entries) : list string :=
  map fst (filter (fun e => negb (is_dir (snd e))) es).

(** One item of [os.walk]: the directory, its sub-directories and its
    other entries. *)
Definition triple : Type := (string * list string * list string)%type.

(** The items of [os.walk(top)] from the node that [top] names, top-down.
    The walk descends into directories only: on a file it yields nothing,
    which is also what [os.walk] does when [top] is not a directory (the
    error of [scandir] is dropped, [onerror] being [None]). What the walk
    raises instead of yielding is [walk_error], below. *)
Fixpoint walk_node (top : string) (nd : node) : list triple :=
  match nd with
  | File _ => []
  | Dir es =>
      (top, dirnames es, filenames es)
        :: flat_map (fun e => walk_node (join top (fst e)) (snd e)) es
  end.

Definition os_walk (fs : filesystem) (top : string) : list triple :=
  match resolve fs top with
  | Some l =>
      match node_at fs l with
      | Some nd => walk_node top nd
      | None => []
      end
  | None => []
  end.

(** *** Exceptions *)

Inductive exn : Type := OSError | ValueError | UnicodeEncodeError.

(** What [os.walk(top)] raises: the [OSError] of a directory that cannot
    be listed is dropped ([onerror] is [None]), the [ValueError] of a path
    with a null character is not. *)
Definition walk_error (top : string) : option exn :=
  if has_char NUL top then Some ValueError else None.

(** *** Opening files *)

Fixpoint set_entry (n : string) (nd : node) (es : entries) : entries :=
  match es with
  | [] => [(n, nd)]
  | (m, old) :: rest =>
      if String.eqb m n then (m, nd) :: rest
      else (m, old) :: set_entry n nd rest
  end.

(** Give the file at a place its contents, creating the file when its
    directory exists and has no entry of that name. *)
Fixpoint set_at (nd : node) (l : loc) (c : content) : option node :=
  match l with
  | [] =>
      match nd with
      | File _ => Some (File c)
      | Dir _ => None
      end
  | n :: rest =>
      match nd with
      | File _ => None
      | Dir es =>
          match lookup_entry n es with
          | Some child =>
              match set_at child rest c with
              | Some child' => Some (Dir (set_entry n child' es))
              | None => None
              end
          | None =>
              match rest with
              | [] => Some (Dir (set_entry n (File c) es))
              | _ :: _ => None
              end
          end
      end
  end.

(** The names under which a file can be created: at most 255 bytes. *)
Definition creatable_name (n : string) : bool :=
  valid_name n && Nat.leb (byte_length n) 255.

(** The place of the file that [open(p, "w")] opens: the directory part
    of [p] must name a directory and its last component must be a name. *)
Definition locate_for_writing (fs : filesystem) (p : string) : option loc :=
  let comps := split slash p in
  let name := last comps "" in
  if creatable_name name then
    match walk_path fs [] (removelast comps) with
    | Some d =>
        match kind_at fs d with
        | Some KDir => Some (d ++ [name])
        | _ => None
        end
    | None => None
    end
  else None.

(** The paths that the system calls take: no null character, and fewer
    than [PATH_MAX] bytes. *)
Definition passable (p : string) : bool :=
  negb (has_char NUL p) && Nat.ltb (byte_length p) 4096.

(** [open(p, "w", encoding="utf-8")]: the file system in which the file
    is empty, and the place of the file; [None] when the call raises. *)
Definition open_for_writing (fs : filesystem) (p : string)
  : option (filesystem * loc) :=
  if passable p then
    match locate_for_writing fs p with
    | Some l =>
        match set_at fs l (Text "") with
        | Some fs' => Some (fs', l)
        | None => None
        end
    | None => None
    end
  else None.

(** What [open(p, "w")] raises when it raises. *)
Definition open_error (p : string) : exn :=
  if has_char NUL p then ValueError else OSError.

(** What [str(e)] is for the [OSError] of a path that names no file. *)
Definition no_file_message (p : string) : string :=
  "[Errno 2] No such file or directory: " ++ repr p.

Definition is_a_directory_message (p : string) : string :=
  "[Errno 21] Is a directory: " ++ repr p.

(** [open(p, "r", encoding="utf-8")] followed by [read()]: the text, or
    the message of the exception. *)
Definition read_text (fs : filesystem) (p : string) : string + string :=
  match resolve fs p with
  | Some l =>
      match node_at fs l with
      | Some (File (Text raw)) => inl (universal_newlines raw)
      | Some (File (Unreadable msg)) => inr msg
      | Some (Dir _) => inr (is_a_directory_message p)
      | None => inr (no_file_message p)
      end
  | None => inr (no_file_message p)
  end.

End FS.

(** ** The order of [list.sort] on strings *)

Module StringOrder <: TotalLeBool.
Definition t : Type := string.
Definition leb : t -> t -> bool := String.leb.
Theorem leb_total : forall a1 a2, leb a1 a2 = true \/ leb a2 a1 = true.
Proof. exact String.leb_total. Qed.
End StringOrder.

Module StringSort := Sort StringOrder.

(** ** The program *)

Module Dumper.
Import PyStr PosixPath FS.

Definition exts : list string :=
  [".ts"; ".tsx"; ".js"; ".jsx"; ".css"; ".md"; ".json"].

(** [any(file.endswith(ext) for ext in exts)] *)
Definition qualifies (file : string) : bool :=
  existsb (fun ext => endswith file ext) exts.

(** The two nested loops over the walk, appending to [collected_paths]. *)
Definition collect_in (folder : string) (files acc : list string)
  : list string :=
  fold_left
    (fun acc file =>
       if qualifies file then acc ++ [join folder file] else acc)
    files acc.

Definition collect (walk : list triple) : list string :=
  fold_left
    (fun acc (item : triple) =>
       let '(folder, _, files) := item in collect_in folder files acc)
    walk [].

(** The paths selected from one item of the walk. *)
Definition selected (item : triple) : list string :=
  map (join (fst (fst item))) (filter qualifies (snd item)).

(** The paths selected under a directory, relative to it. *)
Fixpoint rels (nd : node) : list string :=
  match nd with
  | File _ => []
  | Dir es =>
      filter qualifies (filenames es)
      ++ flat_map
           (fun e => map (fun r => (fst e ++ "/" ++ r)%string)
                         (rels (snd e)))
           es
  end.

(** [collected_paths.sort()] *)
Definition sorted (l : list string) : list string := StringSort.sort l.

(** The order of the sort, and its strict part. *)
Definition le (a b : string) : Prop := String.leb a b = true.
Definition lt (a b : string) : Prop := String.ltb a b = true.

(** Two enumerations of the same walk: the same directories with the
    same entries, the directories and the names in any order. *)
Definition same_item (a b : triple) : Prop :=
  fst (fst a) = fst (fst b)
  /\ Permutation (snd (fst a)) (snd (fst b))
  /\ Permutation (snd a) (snd b).

Definition walk_equiv (w w' : list triple) : Prop :=
  exists v, Forall2 same_item w v /\ Permutation v w'.

(** The paths of the blocks, in the order of the emission loop. *)
Definition collected_paths (fs : filesystem) (root_dir : string)
  : list string :=
  sorted (collect (os_walk fs root_dir)).

(** [f"\n\n===== FILE: {path} =====\n\n"] *)
Definition delimiter (path : string) : string :=
  nl ++ nl ++ "===== FILE: " ++ path ++ " =====" ++ nl ++ nl.

(** [f"[ERROR READING FILE: {e}]"] *)
Definition placeholder (e : string) : string :=
  "[ERROR READING FILE: " ++ e ++ "]".

Inductive mode : Type := R | W.

Definition is_write (m : mode) : bool :=
  match m with W => true | R => false end.

(** The document being written: the text passed to [out.write] so far,
    and the [open] calls made so far. *)
Record out_state : Type := {
  written : string;
  opened : list (string * mode)
}.

(** [out.write(s)]: the text is encoded when it is written; [None] when
    it cannot be, in which case nothing of it is written. *)
Definition out_write (st : out_state) (s : string) : option out_state :=
  if encodable s
  then Some {| written := written st ++ s; opened := opened st |}
  else None.

Definition log_open (st : out_state) (p : string) (m : mode) : out_state :=
  {| written := written st; opened := opened st ++ [(p, m)] |}.

Inductive outcome (A : Type) : Type :=
| Returned (v : A)
| Raised (e : exn).
Arguments Returned {A} v.
Arguments Raised {A} e.

(** The blocks of a document, one after the other. *)
Fixpoint blocks (paths : list string) (rs : list (string + string))
  : string :=
  match paths, rs with
  | p :: paths', r :: rs' =>
      (delimiter p ++ match r with
                      | inl text => text
                      | inr e => placeholder e
                      end ++ blocks paths' rs')%string
  | _, _ => ""
  end.

Record run : Type := {
  fs_after : filesystem;
  trace : list (string * mode);
  result : outcome string
}.

Definition loc_eq_dec : forall a b : loc, {a = b} + {a <> b} :=
  list_eq_dec string_dec.

Definition default (d : string) (arg : option string) : string :=
  match arg with Some v => v | None => d end.

Section Run.

(** What reading the document through a second handle returns while it
    is being written, from the text written so far: the part that has
    left the buffers, decoded, or the message of the exception. *)
Variable peek : string -> string + string.

(** [open(path, "r", encoding="utf-8")] and [f.read()] during the
    emission loop, in the file system [fs] where the document is open
    at the place [out]. *)
Definition read_during (fs : filesystem) (out : loc) (text : string)
           (path : string) : string + string :=
  match resolve fs path with
  | Some l =>
      if loc_eq_dec l out then peek text else read_text fs path
  | None => read_text fs path
  end.

(** What the [try] block comes to, from what the read gives: the text
    that is written to the document, or [str(e)] for the exception that
    the [except] clause catches, which the write raises when the text
    cannot be encoded. *)
Definition try_write (r : string + string) : string + string :=
  match r with
  | inl text =>
      if encodable text then inl text else inr (encode_error_message text)
  | inr e => inr e
  end.

Definition attempt (fs : filesystem) (out : loc) (text : string)
           (path : string) : string + string :=
  try_write (read_during fs out text path).

(** What a block holds after its delimiter. *)
Definition body (r : string + string) : string :=
  match r with
  | inl text => text
  | inr e => placeholder e
  end.

Definition block (path : string) (r : string + string) : string :=
  (delimiter path ++ body r)%string.

(** The outcome of the [try] block of each path, in the order of the
    loop, [text] being what has been written before. *)
Fixpoint reads (fs : filesystem) (out : loc) (paths : list string)
         (text : string) : list (string + string) :=
  match paths with
  | [] => []
  | p :: rest =>
      let r := attempt fs out (text ++ delimiter p) p in
      r :: reads fs out rest (text ++ block p r)
  end.

(** The body of the emission loop: the state it leaves, and the
    exception that leaves the loop, if one does. The delimiter is written
    outside the [try] block, the placeholder inside the [except]
    clause: neither exception is caught. *)
Definition emit_one (fs : filesystem) (out : loc) (st : out_state)
           (path : string) : out_state * option exn :=
  match out_write st (delimiter path) with
  | None => (st, Some UnicodeEncodeError)
  | Some st =>
      let st := log_open st path R in
      let tried :=
        match read_during fs out (written st) path with
        | inl text =>
            match out_write st text with
            | Some st' => inl st'
            | None => inr (encode_error_message text)
            end
        | inr e => inr e
        end in
      match tried with
      | inl st' => (st', None)
      | inr e =>
          match out_write st (placeholder e) with
          | Some st' => (st', None)
          | None => (st, Some UnicodeEncodeError)
          end
      end
  end.

Fixpoint emit (fs : filesystem) (out : loc) (paths : list string)
         (st : out_state) : out_state * option exn :=
  match paths with
  | [] => (st, None)
  | path :: rest =>
      match emit_one fs out st path with
      | (st', None) => emit fs out rest st'
      | (st', Some e) => (st', Some e)
      end
  end.

(** The blocks that can be written: the delimiter and the body of each
    can be encoded. *)
Definition block_ok (p : string) (r : string + string) : bool :=
  encodable (delimiter p)
  && match r with inl _ => true | inr e => encodable (placeholder e) end.

Fixpoint smooth (paths : list string) (rs : list (string + string))
  : bool :=
  match paths, rs with
  | p :: paths', r :: rs' => block_ok p r && smooth paths' rs'
  | _, _ => true
  end.

(** What the loop writes before it ends or is left: whole blocks, and
    the delimiter of the block whose placeholder cannot be written. *)
Fixpoint written_blocks (paths : list string) (rs : list (string + string))
  : string :=
  match paths, rs with
  | p :: paths', r :: rs' =>
      if encodable (delimiter p) then
        if block_ok p r
        then (block p r ++ written_blocks paths' rs')%string
        else delimiter p
      else ""
  | _, _ => ""
  end.

(** Leaving the [with] block closes the document, also when an
    exception leaves it: all the text written is in the file. *)
Definition close (fs : filesystem) (out : loc) (st : out_state)
  : filesystem :=
  match set_at fs out (Text (written st)) with
  | Some fs' => fs'
  | None => fs
  end.

Definition collect_source_files (fs : filesystem)
           (root_dir output_file : option string) : run :=
  let root_dir := default "./src" root_dir in
  let output_file := default "merged_source_dump.txt" output_file in
  match walk_error root_dir with
  | Some e => {| fs_after := fs; trace := []; result := Raised e |}
  | None =>
      let collected_paths := collect (os_walk fs root_dir) in
      let collected_paths := sorted collected_paths in
      match open_for_writing fs output_file with
      | None =>
          {| fs_after := fs;
             trace := [(output_file, W)];
             result := Raised (open_error output_file) |}
      | Some (fs_open, out) =>
          let '(st, failure) :=
            emit fs_open out collected_paths
                 {| written := ""; opened := [(output_file, W)] |} in
          {| fs_after := close fs_open out st;
             trace := opened st;
             result := match failure with
                       | None => Returned output_file
                       | Some e => Raised e
                       end |}
      end
  end.

(** [print(a, b)] *)
Definition print (a b : string) : string := a ++ " " ++ b ++ nl.

Record process : Type := {
  fs_end : filesystem;
  opens : list (string * mode);
  stdout : string;
  status : outcome unit
}.

(** The body of the module, run with [__name__] bound to [dunder_name]:
    the definition of the function, then the two statements
    [final_doc = collect_source_files()] and [print(...)]. *)
Definition exec_module (dunder_name : string) (fs : filesystem)
  : process :=
  let r := collect_source_files fs None None in
  match result r with
  | Returned final_doc =>
      {| fs_end := fs_after r;
         opens := trace r;
         stdout := print "Merged document saved as:" final_doc;
         status := Returned tt |}
  | Raised e =>
      {| fs_end := fs_after r;
         opens := trace r;
         stdout := "";
         status := Raised e |}
  end.

End Run.

(** A run whose document stays in the buffers until it is closed: a
    second handle reads an empty file. *)
Definition unflushed (text : string) : string + string := inl "".

(** A tree to run the program on. *)
Definition sample_tree : filesystem :=
  Dir [("src",
        Dir [("b.md", File (Text "y"));
             ("c.png", File (Unreadable "'utf-8' codec can't decode"));
             ("a.ts", File (Text "x"));
             ("lib", Dir [("z.json", File (Unreadable "denied"))])]);
       ("README.md", File (Text "r"))].

(** A tree with a file that cannot be read and a file whose line ends
    with a carriage return and a line feed. *)
Definition draft_tree : filesystem :=
  Dir [("src",
        Dir [("style.css", File (Text "s"));
             ("main.ts",
              File (Text ("x" ++ String CR (String LF "y"))));
             ("locked.json",
              File (Unreadable
                      "[Errno 13] Permission denied: './src/locked.json'"))])].

(** A name written in Latin-1 on a UTF-8 platform: the byte E9 of its
    accented letter is read as the surrogate U+DCE9. *)
Definition latin1_name : string := "caf" ++ String "233"%char ".md".

Definition legacy_tree : filesystem :=
  Dir [("zebra.md", File (Text "z"));
       (latin1_name, File (Text "c"));
       ("broken.md", File (Unreadable "denied"));
       ("notes.md", File (Text "n"))].


(** The file system and the place of the document once [open(p, "w")] has
    returned. *)
Definition opened_tree (fs : filesystem) (p : string) : filesystem :=
  match open_for_writing fs p with
  | Some (fs_open, _) => fs_open
  | None => fs
  end.

Definition opened_place (fs : filesystem) (p : string) : loc :=
  match open_for_writing fs p with
  | Some (_, out) => out
  | None => []
  end.

(** A tree with directories that are named like source files. *)
Definition vendor_tree : filesystem :=
  Dir [("node_modules",
        Dir [("chart.js",
              Dir [("index.js", File (Text "c"));
                   ("LICENSE", File (Text "l"))]);
             (".cache", Dir [("state.json", File (Text "s"))])]);
       ("app.ts", File (Text "a"))].

(** Two trees that hold the same entries with the same contents, the
    entries of a directory in any order. *)
Definition content_eqb (a b : content) : bool :=
  match a, b with
  | Text x, Text y => String.eqb x y
  | Unreadable x, Unreadable y => String.eqb x y
  | _, _ => false
  end.

Fixpoint same_tree (a b : node) : bool :=
  match a, b with
  | File c, File c' => content_eqb c c'
  | Dir es, Dir es' =>
      Nat.eqb (List.length es) (List.length es')
      && forallb
           (fun e => match lookup_entry (fst e) es' with
                     | Some child' => same_tree (snd e) child'
                     | None => false
                     end)
           es
  | _, _ => false
  end.

(** What two file systems agree on when they hold the same entries. *)
Definition agree (fs fs' : filesystem) : Prop :=
  forall l,
    kind_at fs l = kind_at fs' l
    /\ forall c, node_at fs l = Some (File c) <-> node_at fs' l = Some (File c).

(** The sample tree as another file system could enumerate it. *)
Definition sample_tree_reordered : filesystem :=
  Dir [("README.md", File (Text "r"));
       ("src",
        Dir [("lib", Dir [("z.json", File (Unreadable "denied"))]);
             ("a.ts", File (Text "x"));
             ("c.png", File (Unreadable "'utf-8' codec can't decode"));
             ("b.md", File (Text "y"))])].

(** [os.path.isfile(p)], in a tree of directories and regular files *)
Definition is_file (fs : filesystem) (p : string) : bool :=
  match resolve fs p with
  | Some l =>
      match kind_at fs l with
      | Some KFile => true
      | _ => false
      end
  | None => false
  end.

(** The text of the file that a path names. *)
Definition file_text (fs : filesystem) (p : string) : option string :=
  match resolve fs p with
  | Some l =>
      match node_at fs l with
      | Some (File (Text raw)) => Some raw
      | _ => None
      end
  | None => None
  end.

End Dumper.

(** * Properties *)

(** ** Strings *)

Module StrFacts.
Import PyStr.
Local Open Scope string_scope.

Lemma append_nil_r (s : string) : s ++ "" = s.
Proof. induction s as [|c s IH]; simpl; [reflexivity | now rewrite IH]. Qed.

Lemma append_assoc (a b c : string) : (a ++ b) ++ c = a ++ (b ++ c).
Proof. induction a as [|x a IH]; simpl; [reflexivity | now rewrite IH]. Qed.

Lemma length_append (a b : string) :
  String.length (a ++ b) = String.length a + String.length b.
Proof. induction a as [|x a IH]; simpl; [reflexivity | now rewrite IH]. Qed.

Lemma append_inv_head (a x y : string) : a ++ x = a ++ y -> x = y.
Proof.
  induction a as [|c a IH]; simpl; intros H; [exact H|].
  injection H as H. now apply IH.
Qed.

Lemma append_eq_nil (a b : string) : a ++ b = "" -> a = "" /\ b = "".
Proof. destruct a; simpl; intros H; [now split | discriminate]. Qed.

(** [endswith] is the suffix test. *)
Lemma endswith_iff (s suffix : string) :
  endswith s suffix = true <-> exists pre, s = pre ++ suffix.
Proof.
  induction s as [|c s IH].
  - destruct suffix as [|d suffix]; simpl.
    + split; [exists ""; reflexivity | reflexivity].
    + split; [discriminate|]. intros [pre H].
      destruct pre; simpl in H; discriminate.
  - cbn [endswith].
    destruct (String.eqb_spec (String c s) suffix) as [E|E].
    + split; [|reflexivity]. intros _. exists "". now rewrite E.
    + rewrite IH. split.
      * intros [pre H]. exists (String c pre). simpl. now rewrite H.
      * intros [pre H]. destruct pre as [|d pre]; simpl in H.
        -- now contradiction E.
        -- injection H as _ H. now exists pre.
Qed.

Lemma has_char_append (sep : ascii) (a b : string) :
  has_char sep (a ++ b) = has_char sep a || has_char sep b.
Proof.
  induction a as [|c a IH]; simpl; [reflexivity|].
  destruct (Ascii.eqb c sep); [reflexivity | exact IH].
Qed.

Lemma split_not_nil (sep : ascii) (s : string) : split sep s <> [].
Proof.
  destruct s as [|c s]; simpl; [discriminate|].
  destruct (Ascii.eqb c sep); [discriminate|].
  destruct (split sep s); discriminate.
Qed.

Lemma split_plain (sep : ascii) (s : string) :
  has_char sep s = false -> split sep s = [s].
Proof.
  induction s as [|c s IH]; simpl; [reflexivity|].
  destruct (Ascii.eqb c sep); [discriminate|].
  intros H. now rewrite (IH H).
Qed.

(** Splitting at a separator splits the list of components. *)
Lemma split_append (sep : ascii) (a b : string) :
  split sep (a ++ String sep b) = (split sep a ++ split sep b)%list.
Proof.
  induction a as [|c a IH]; simpl.
  - now rewrite Ascii.eqb_refl.
  - destruct (Ascii.eqb c sep); [now rewrite IH|].
    rewrite IH. destruct (split sep a) as [|h t] eqn:E.
    + now contradiction (split_not_nil sep a).
    + reflexivity.
Qed.

Lemma last_char_append (a b : string) :
  b <> "" -> last_char (a ++ b) = last_char b.
Proof.
  intros Hb. induction a as [|c a IH]; simpl; [reflexivity|].
  destruct (a ++ b) eqn:E; [|exact IH].
  apply append_eq_nil in E. now destruct E.
Qed.

Lemma last_char_plain (sep : ascii) (s : string) :
  has_char sep s = false -> last_char s <> Some sep.
Proof.
  induction s as [|c s IH]; simpl; [discriminate|].
  destruct (Ascii.eqb_spec c sep) as [E|E]; [discriminate|].
  intros H. destruct s; [congruence | now apply IH].
Qed.

Lemma endswith_last_char (s : string) (c : ascii) :
  endswith s (String c "") = true <-> last_char s = Some c.
Proof.
  induction s as [|d s IH]; [simpl; split; discriminate|].
  cbn [endswith last_char].
  destruct (String.eqb_spec (String d s) (String c "")) as [E|E].
  - injection E as -> ->. split; reflexivity.
  - destruct s as [|e s].
    + split; [discriminate|]. intros H. injection H as ->.
      now contradiction E.
    + exact IH.
Qed.

Lemma startswith_plain (s : string) :
  has_char slash s = false -> startswith s "/" = false.
Proof.
  destruct s as [|c s]; simpl; [reflexivity|].
  unfold slash. now destruct (Ascii.eqb c "/").
Qed.

(** [contains] finds every occurrence. *)
Lemma startswith_append (x post : string) : startswith (x ++ post) x = true.
Proof.
  induction x as [|c x IH]; simpl; [reflexivity|].
  now rewrite Ascii.eqb_refl.
Qed.

Lemma contains_occurrence (pre x post : string) :
  contains (pre ++ x ++ post) x = true.
Proof.
  induction pre as [|c pre IH].
  - cbn [append]. pose proof (startswith_append x post) as H.
    destruct (x ++ post); cbn [contains]; now rewrite H.
  - cbn [append contains]. rewrite IH.
    now destruct (startswith (String c (pre ++ x ++ post)) x).
Qed.

(** Text without carriage returns is read as it is. *)
Lemma universal_newlines_plain (s : string) :
  has_char CR s = false -> universal_newlines s = s.
Proof.
  induction s as [|c s IH]; simpl; [reflexivity|].
  destruct (Ascii.eqb c CR); [discriminate|].
  intros H. now rewrite (IH H).
Qed.

End StrFacts.

(** ** Sorting *)

Module SortFacts.
Import Dumper.

Lemma le_trans (a b c : string) : le a b -> le b c -> le a c.
Proof.
  unfold le, String.leb. revert b c.
  induction a as [|x a IH]; intros [|y b] [|z c]; simpl;
    try congruence; try reflexivity.
  unfold Ascii.compare.
  destruct (N.compare_spec (N_of_ascii x) (N_of_ascii y));
    destruct (N.compare_spec (N_of_ascii y) (N_of_ascii z));
    destruct (N.compare_spec (N_of_ascii x) (N_of_ascii z));
    try congruence; try lia; try reflexivity.
  apply IH.
Qed.

Lemma le_antisym (a b : string) : le a b -> le b a -> a = b.
Proof. apply String.leb_antisym. Qed.

Lemma compare_refl (a : string) : String.compare a a = Eq.
Proof.
  induction a as [|x a IH]; simpl; [reflexivity|].
  unfold Ascii.compare. now rewrite N.compare_refl.
Qed.

Lemma lt_iff (a b : string) : lt a b <-> le a b /\ a <> b.
Proof.
  unfold lt, le, String.ltb, String.leb.
  pose proof (String.compare_eq_iff a b) as E1.
  assert (E2 : a = b -> String.compare a b = Eq)
    by (intros ->; apply compare_refl).
  destruct (String.compare a b); split; try congruence.
  - intros [_ H]. contradiction H. now apply E1.
  - intros _. split; [reflexivity|]. intros H. apply E2 in H. discriminate.
  - intros [H _]. discriminate.
Qed.

Lemma sorted_permutation (l : list string) : Permutation l (sorted l).
Proof. apply StringSort.Permuted_sort. Qed.

Lemma sorted_strongly (l : list string) : StronglySorted le (sorted l).
Proof.
  apply (@StringSort.StronglySorted_sort l).
  intros a b c. apply le_trans.
Qed.

(** A list has one sorted arrangement. *)
Lemma strongly_sorted_unique (l1 : list string) :
  forall l2, StronglySorted le l1 -> StronglySorted le l2 ->
             Permutation l1 l2 -> l1 = l2.
Proof.
  induction l1 as [|x l1 IH]; intros l2 S1 S2 P.
  - now apply Permutation_nil in P.
  - destruct l2 as [|y l2].
    + apply Permutation_sym, Permutation_nil in P. discriminate.
    + inversion S1 as [|? ? S1' F1]; subst.
      inversion S2 as [|? ? S2' F2]; subst.
      assert (x = y) as ->.
      { assert (Hx : In x (y :: l2))
          by (apply (Permutation_in _ P); now left).
        assert (Hy : In y (x :: l1))
          by (apply (Permutation_in _ (Permutation_sym P)); now left).
        destruct Hx as [->|Hx]; [reflexivity|].
        destruct Hy as [->|Hy]; [reflexivity|].
        rewrite Forall_forall in F1, F2.
        apply le_antisym; [now apply F1 | now apply F2]. }
      f_equal. apply IH; trivial. now apply Permutation_cons_inv in P.
Qed.

(** The sorted list depends on the elements only, not on their order. *)
Lemma sorted_of_permutation (l1 l2 : list string) :
  Permutation l1 l2 -> sorted l1 = sorted l2.
Proof.
  intros P. apply strongly_sorted_unique; try apply sorted_strongly.
  eapply Permutation_trans; [apply Permutation_sym, sorted_permutation|].
  eapply Permutation_trans; [exact P | apply sorted_permutation].
Qed.

Lemma sorted_in (l : list string) (x : string) : In x (sorted l) <-> In x l.
Proof.
  split; apply Permutation_in;
    [apply Permutation_sym|]; apply sorted_permutation.
Qed.

Lemma sorted_nodup (l : list string) : NoDup l -> NoDup (sorted l).
Proof. apply Permutation_NoDup, sorted_permutation. Qed.

(** Without duplicates the order is strict. *)
Lemma strongly_sorted_strict (l : list string) :
  NoDup l -> StronglySorted le l -> StronglySorted lt l.
Proof.
  induction l as [|x l IH]; intros N S; [constructor|].
  inversion N as [|? ? Hx N']; subst.
  inversion S as [|? ? S' F]; subst.
  constructor; [now apply IH|].
  rewrite Forall_forall in *. intros y Hy. apply lt_iff. split.
  - now apply F.
  - intros ->. now apply Hx.
Qed.

End SortFacts.

(** ** Selection *)

Module CollectFacts.
Import PyStr PosixPath FS Dumper.

Lemma collect_in_spec (folder : string) (files acc : list string) :
  collect_in folder files acc
  = acc ++ map (join folder) (filter qualifies files).
Proof.
  unfold collect_in. revert acc.
  induction files as [|f files IH]; intros acc; simpl.
  - now rewrite app_nil_r.
  - rewrite IH. destruct (qualifies f); simpl; [|reflexivity].
    now rewrite <- app_assoc.
Qed.

Lemma collect_fold (walk : list triple) (acc : list string) :
  fold_left
    (fun acc (item : triple) =>
       let '(folder, _, files) := item in collect_in folder files acc)
    walk acc
  = acc ++ flat_map selected walk.
Proof.
  revert acc. induction walk as [|[[folder dirs] files] walk IH];
    intros acc; simpl.
  - now rewrite app_nil_r.
  - rewrite IH, collect_in_spec. unfold selected at 2. simpl.
    now rewrite <- app_assoc.
Qed.

(** The loops collect, item after item, the joined paths of the names
    that qualify. *)
Lemma collect_spec (walk : list triple) :
  collect walk = flat_map selected walk.
Proof. unfold collect. now rewrite collect_fold. Qed.

Lemma collect_app (w1 w2 : list triple) :
  collect (w1 ++ w2) = collect w1 ++ collect w2.
Proof. rewrite !collect_spec. apply flat_map_app. Qed.

Lemma collect_cons (item : triple) (w : list triple) :
  collect (item :: w) = selected item ++ collect w.
Proof. now rewrite !collect_spec. Qed.

Lemma in_collect (walk : list triple) (p : string) :
  In p (collect walk) <->
  exists folder dirs files file,
    In (folder, dirs, files) walk /\ In file files
    /\ qualifies file = true /\ p = join folder file.
Proof.
  rewrite collect_spec, in_flat_map. split.
  - intros [[[folder dirs] files] [Hi Hp]]. unfold selected in Hp.
    simpl in Hp. apply in_map_iff in Hp. destruct Hp as [file [<- Hf]].
    apply filter_In in Hf. destruct Hf as [Hf Hq].
    now exists folder, dirs, files, file.
  - intros [folder [dirs [files [file [Hi [Hf [Hq ->]]]]]]].
    exists (folder, dirs, files). split; [exact Hi|].
    unfold selected. simpl. apply in_map, filter_In. now split.
Qed.

(** [qualifies] is the suffix test against the configured extensions. *)
Lemma qualifies_iff (file : string) :
  qualifies file = true <->
  exists ext pre, In ext exts /\ file = (pre ++ ext)%string.
Proof.
  unfold qualifies. rewrite existsb_exists. split.
  - intros [ext [Hi He]]. apply StrFacts.endswith_iff in He.
    destruct He as [pre ->]. now exists ext, pre.
  - intros [ext [pre [Hi ->]]]. exists ext. split; [exact Hi|].
    apply StrFacts.endswith_iff. now exists pre.
Qed.

(** The selection does not depend on the order of the enumeration. *)
Lemma selected_permutation (a b : triple) :
  same_item a b -> Permutation (selected a) (selected b).
Proof.
  intros [Hf [_ Hp]]. unfold selected. rewrite Hf.
  apply Permutation_map.
  induction Hp as [|x l l' Hp IH|x y l|l l' l'' H1 IH1 H2 IH2]; simpl.
  - constructor.
  - destruct (qualifies x); [now constructor | exact IH].
  - destruct (qualifies x), (qualifies y);
      try apply Permutation_refl. apply perm_swap.
  - now apply Permutation_trans with (filter qualifies l').
Qed.

Lemma collect_permutation (w w' : list triple) :
  walk_equiv w w' -> Permutation (collect w) (collect w').
Proof.
  intros [v [HF HP]]. rewrite !collect_spec.
  apply Permutation_trans with (flat_map selected v).
  - clear HP. induction HF as [|a b w v Hab HF IH]; simpl; [constructor|].
    apply Permutation_app; [now apply selected_permutation | exact IH].
  - now apply Permutation_flat_map.
Qed.

End CollectFacts.

(** ** Emission *)

Module EmitFacts.
Import PyStr PosixPath FS Dumper.
Local Open Scope string_scope.

Lemma encodable_app (a b : string) :
  encodable (a ++ b) = encodable a && encodable b.
Proof.
  induction a as [|c a IH]; [reflexivity|].
  cbn [append encodable]. now rewrite IH, andb_assoc.
Qed.

Lemma encodable_universal_newlines (s : string) :
  encodable s = true -> encodable (universal_newlines s) = true.
Proof.
  assert (G : forall n s, String.length s <= n -> encodable s = true ->
                          encodable (universal_newlines s) = true).
  { clear s. induction n as [|n IH]; intros [|c s] L E; simpl in L;
      try reflexivity; try lia.
    cbn [encodable] in E. apply andb_true_iff in E. destruct E as [Ec Es].
    cbn [universal_newlines]. destruct (Ascii.eqb c CR).
    - destruct s as [|d s]; [reflexivity|].
      destruct (Ascii.eqb d LF).
      + cbn [encodable]. cbn [encodable] in Es.
        apply andb_true_iff in Es. destruct Es as [_ Es].
        apply IH; [simpl in L; lia | exact Es].
      + change (encodable (String LF (universal_newlines (String d s))))
          with (encodable (universal_newlines (String d s))).
        apply IH; [lia | exact Es].
    - cbn [encodable]. rewrite Ec. apply IH; [lia | exact Es]. }
  apply (G (String.length s)). lia.
Qed.

Lemma encodable_delimiter (p : string) :
  encodable (delimiter p) = encodable p.
Proof.
  unfold delimiter. rewrite !encodable_app.
  change (encodable nl) with true.
  change (encodable "===== FILE: ") with true.
  change (encodable " =====") with true.
  cbn [andb]. now rewrite andb_true_r.
Qed.

Lemma encodable_placeholder (e : string) :
  encodable (placeholder e) = encodable e.
Proof.
  unfold placeholder. rewrite !encodable_app.
  change (encodable "[ERROR READING FILE: ") with true.
  change (encodable "]") with true.
  cbn [andb]. now rewrite andb_true_r.
Qed.

Lemma try_write_text (text : string) :
  encodable text = true -> try_write (inl text) = inl text.
Proof. intros E. unfold try_write. now rewrite E. Qed.

Lemma blocks_app (p1 p2 : list string) (r1 r2 : list (string + string)) :
  List.length p1 = List.length r1 ->
  blocks (p1 ++ p2) (r1 ++ r2) = blocks p1 r1 ++ blocks p2 r2.
Proof.
  revert r1. induction p1 as [|p p1 IH]; intros [|r r1] H;
    simpl in H; try discriminate; [reflexivity|].
  cbn [app blocks]. rewrite IH by lia.
  now rewrite !StrFacts.append_assoc.
Qed.

Lemma smooth_app (p1 p2 : list string) (r1 r2 : list (string + string)) :
  List.length p1 = List.length r1 ->
  smooth (p1 ++ p2) (r1 ++ r2) = smooth p1 r1 && smooth p2 r2.
Proof.
  revert r1. induction p1 as [|p p1 IH]; intros [|r r1] H;
    simpl in H; try discriminate; [reflexivity|].
  cbn [app smooth]. rewrite IH by lia. now rewrite andb_assoc.
Qed.

(** As long as every block can be written, whole blocks are. *)
Lemma written_blocks_smooth (paths : list string) :
  forall rs, smooth paths rs = true -> written_blocks paths rs = blocks paths rs.
Proof.
  induction paths as [|p paths IH]; intros [|r rs] H; try reflexivity.
  cbn [smooth] in H. apply andb_true_iff in H. destruct H as [B H].
  cbn [written_blocks blocks]. rewrite B.
  unfold block_ok in B. apply andb_true_iff in B. destruct B as [-> _].
  rewrite (IH _ H). unfold block, body.
  now rewrite !StrFacts.append_assoc.
Qed.

Lemma written_blocks_app (p1 p2 : list string)
      (r1 r2 : list (string + string)) :
  List.length p1 = List.length r1 ->
  smooth p1 r1 = true ->
  written_blocks (p1 ++ p2) (r1 ++ r2)
  = blocks p1 r1 ++ written_blocks p2 r2.
Proof.
  revert r1. induction p1 as [|p p1 IH]; intros [|r r1] H S;
    simpl in H; try discriminate; [reflexivity|].
  cbn [smooth] in S. apply andb_true_iff in S. destruct S as [B S].
  cbn [app written_blocks blocks]. rewrite B.
  unfold block_ok in B. apply andb_true_iff in B. destruct B as [-> _].
  rewrite IH by (lia || exact S). unfold block, body.
  now rewrite !StrFacts.append_assoc.
Qed.

(** What is written is a number of whole blocks, in the order of the
    paths, and at most the delimiter of the next path. *)
Lemma written_blocks_prefix (paths : list string) :
  forall rs,
    List.length rs = List.length paths ->
    exists k tail,
      k <= List.length paths
      /\ written_blocks paths rs
         = blocks (firstn k paths) (firstn k rs) ++ tail
      /\ (tail = "" \/ exists p, nth_error paths k = Some p
                                 /\ tail = delimiter p)
      /\ (smooth paths rs = true -> k = List.length paths /\ tail = "").
Proof.
  induction paths as [|p paths IH]; intros [|r rs] H; simpl in H;
    try discriminate.
  - exists 0, "". repeat split; auto.
  - destruct (IH rs ltac:(lia)) as [k [tail [Hk [E [T Sm]]]]].
    cbn [written_blocks smooth].
    destruct (encodable (delimiter p)) eqn:D.
    + destruct (block_ok p r) eqn:B.
      * exists (S k), tail. split; [simpl; lia|]. split.
        { cbn [firstn blocks]. rewrite E. unfold block, body.
          now rewrite !StrFacts.append_assoc. }
        split; [exact T|]. cbn [andb]. intros Hs.
        destruct (Sm Hs) as [-> ->]. now split.
      * exists 0, (delimiter p). split; [lia|]. split; [reflexivity|].
        split; [right; now exists p|]. discriminate.
    + exists 0, "". split; [lia|]. split; [reflexivity|].
      split; [now left|].
      unfold block_ok. rewrite D. discriminate.
Qed.

Section Emit.
Variable peek : string -> string + string.
Variables (fs : filesystem) (out : loc).

(** The body of the loop, by cases on what can be encoded. *)
Lemma emit_one_spec (st : out_state) (p : string) :
  let x := attempt peek fs out (written st ++ delimiter p) p in
  emit_one peek fs out st p
  = if encodable (delimiter p) then
      if block_ok p x then
        ({| written := written st ++ block p x;
            opened := (opened st ++ [(p, R)])%list |}, None)
      else
        ({| written := written st ++ delimiter p;
            opened := (opened st ++ [(p, R)])%list |},
         Some UnicodeEncodeError)
    else (st, Some UnicodeEncodeError).
Proof.
  cbv zeta. unfold emit_one, out_write, block_ok, attempt.
  destruct (encodable (delimiter p)) eqn:D; [|reflexivity].
  cbn [log_open written opened andb].
  destruct (read_during peek fs out (written st ++ delimiter p) p)
    as [text|e]; cbn [try_write].
  - destruct (encodable text) eqn:T.
    + unfold block, body. now rewrite StrFacts.append_assoc.
    + destruct (encodable (placeholder (encode_error_message text)));
        [|reflexivity].
      unfold block, body. now rewrite StrFacts.append_assoc.
  - destruct (encodable (placeholder e)); [|reflexivity].
    unfold block, body. now rewrite StrFacts.append_assoc.
Qed.

(** What the loop has written when it ends or is left. *)
Lemma written_emit (paths : list string) (st : out_state) :
  written (fst (emit peek fs out paths st))
  = written st
    ++ written_blocks paths (reads peek fs out paths (written st)).
Proof.
  revert st. induction paths as [|p paths IH]; intros st.
  - simpl. now rewrite StrFacts.append_nil_r.
  - cbn [emit reads written_blocks]. rewrite emit_one_spec. cbv zeta.
    destruct (encodable (delimiter p)).
    + destruct (block_ok p _).
      * rewrite IH. cbn [written].
        now rewrite StrFacts.append_assoc.
      * reflexivity.
    + simpl. now rewrite StrFacts.append_nil_r.
Qed.

(** The loop ends when every block can be written, and is left with
    [UnicodeEncodeError] otherwise. *)
Lemma failure_emit (paths : list string) (st : out_state) :
  snd (emit peek fs out paths st)
  = if smooth paths (reads peek fs out paths (written st))
    then None else Some UnicodeEncodeError.
Proof.
  revert st. induction paths as [|p paths IH]; intros st; [reflexivity|].
  cbn [emit reads smooth]. rewrite emit_one_spec. cbv zeta.
  destruct (encodable (delimiter p)) eqn:D.
  - destruct (block_ok p _) eqn:B; [|reflexivity].
    rewrite IH. reflexivity.
  - unfold block_ok. rewrite D. reflexivity.
Qed.

(** The files are opened in the order of the paths. *)
Lemma opened_emit_prefix (paths : list string) (st : out_state) :
  exists k,
    k <= List.length paths
    /\ opened (fst (emit peek fs out paths st))
       = (opened st ++ map (fun p => (p, R)) (firstn k paths))%list.
Proof.
  revert st. induction paths as [|p paths IH]; intros st.
  - exists 0. simpl. now rewrite app_nil_r.
  - cbn [emit]. rewrite emit_one_spec. cbv zeta.
    destruct (encodable (delimiter p)).
    + destruct (block_ok p _).
      * destruct (IH {| written := written st
                                   ++ block p
                                        (attempt peek fs out
                                           (written st ++ delimiter p) p);
                        opened := (opened st ++ [(p, R)])%list |})
          as [k [Hk E]].
        exists (S k). split; [simpl; lia|]. rewrite E. cbn [opened firstn map].
        now rewrite <- app_assoc.
      * exists 1. split; [simpl; lia|]. reflexivity.
    + exists 0. split; [lia|]. simpl. now rewrite app_nil_r.
Qed.

Lemma opened_emit (paths : list string) (st : out_state) :
  smooth paths (reads peek fs out paths (written st)) = true ->
  opened (fst (emit peek fs out paths st))
  = (opened st ++ map (fun p => (p, R)) paths)%list.
Proof.
  revert st. induction paths as [|p paths IH]; intros st S.
  - simpl. now rewrite app_nil_r.
  - cbn [reads smooth] in S. apply andb_true_iff in S. destruct S as [B S].
    cbn [emit]. rewrite emit_one_spec. cbv zeta. rewrite B.
    unfold block_ok in B. apply andb_true_iff in B. destruct B as [D _].
    rewrite D, IH; [cbn [opened map]; now rewrite <- app_assoc|].
    exact S.
Qed.

(** The document is opened once, whatever the loop does. *)
Lemma writes_emit (paths : list string) (st : out_state) :
  filter (fun e => is_write (snd e)) (opened (fst (emit peek fs out paths st)))
  = filter (fun e => is_write (snd e)) (opened st).
Proof.
  destruct (opened_emit_prefix paths st) as [k [_ ->]].
  rewrite filter_app.
  assert (E : filter (fun e : string * mode => is_write (snd e))
                     (map (fun p => (p, R)) (firstn k paths)) = []).
  { induction (firstn k paths) as [|q l IH]; [reflexivity | exact IH]. }
  rewrite E. apply app_nil_r.
Qed.

Lemma length_reads (paths : list string) (text : string) :
  List.length (reads peek fs out paths text) = List.length paths.
Proof.
  revert text. induction paths as [|p paths IH]; intros text; simpl;
    [reflexivity | now rewrite IH].
Qed.


(** The reads of a list of paths, split at a path. *)
Lemma reads_app (before after : list string) (text : string) :
  reads peek fs out (before ++ after) text
  = (reads peek fs out before text
     ++ reads peek fs out after
          (text ++ blocks before (reads peek fs out before text)))%list.
Proof.
  revert text. induction before as [|p before IH]; intros text.
  - simpl. now rewrite StrFacts.append_nil_r.
  - cbn [app reads blocks]. rewrite IH. unfold block, body.
    rewrite !StrFacts.append_assoc. reflexivity.
Qed.

End Emit.

End EmitFacts.

(** ** The file system *)

Module FsFacts.
Import PyStr PosixPath FS.

(** Induction on a tree, with the hypothesis for every entry. *)
Lemma node_induction (P : node -> Prop) :
  (forall c, P (File c)) ->
  (forall es, Forall (fun e => P (snd e)) es -> P (Dir es)) ->
  forall nd, P nd.
Proof.
  intros HF HD. fix rec 1. intros [c|es]; [apply HF|].
  apply HD. induction es as [|[n child] es IH]; constructor.
  - apply rec.
  - exact IH.
Qed.

Lemma lookup_set_entry_same (n : string) (nd : node) (es : entries) :
  lookup_entry n (set_entry n nd es) = Some nd.
Proof.
  induction es as [|[m old] es IH]; simpl.
  - now rewrite String.eqb_refl.
  - destruct (String.eqb_spec m n) as [->|D]; simpl.
    + now rewrite String.eqb_refl.
    + destruct (String.eqb_spec m n); [contradiction | exact IH].
Qed.

Lemma lookup_set_entry_other (m n : string) (nd : node) (es : entries) :
  m <> n -> lookup_entry m (set_entry n nd es) = lookup_entry m es.
Proof.
  intros H. induction es as [|[k old] es IH]; simpl.
  - destruct (String.eqb_spec n m); [congruence | reflexivity].
  - destruct (String.eqb_spec k n) as [->|D]; simpl.
    + destruct (String.eqb_spec n m); [congruence | reflexivity].
    + destruct (String.eqb_spec k m); [reflexivity | exact IH].
Qed.

Lemma set_entry_twice (n : string) (a b : node) (es : entries) :
  set_entry n b (set_entry n a es) = set_entry n b es.
Proof.
  induction es as [|[k old] es IH]; simpl.
  - now rewrite String.eqb_refl.
  - destruct (String.eqb_spec k n) as [->|D]; simpl.
    + now rewrite String.eqb_refl.
    + destruct (String.eqb_spec k n); [contradiction | now rewrite IH].
Qed.

Lemma node_at_app (fs : node) (a b : loc) :
  node_at fs (a ++ b)
  = match node_at fs a with
    | Some nd => node_at nd b
    | None => None
    end.
Proof.
  revert fs. induction a as [|n a IH]; intros fs; simpl; [reflexivity|].
  destruct fs as [c|es]; [reflexivity|].
  destruct (lookup_entry n es); [apply IH | reflexivity].
Qed.

(** *** Writing a file changes that file only *)

Lemma node_at_set_same (l : loc) :
  forall fs c fs', set_at fs l c = Some fs' ->
                   node_at fs' l = Some (File c).
Proof.
  induction l as [|n rest IH]; intros fs c fs' H.
  - destruct fs; simpl in H; [|discriminate]. now injection H as <-.
  - destruct fs as [?|es]; simpl in H; [discriminate|].
    destruct (lookup_entry n es) as [child|] eqn:E.
    + destruct (set_at child rest c) as [child'|] eqn:S; [|discriminate].
      injection H as <-. simpl. rewrite lookup_set_entry_same.
      now apply IH with child.
    + destruct rest; [|discriminate]. injection H as <-.
      simpl. now rewrite lookup_set_entry_same.
Qed.

Lemma kind_at_set_other (l : loc) :
  forall fs c fs', set_at fs l c = Some fs' ->
  forall l', l' <> l -> kind_at fs' l' = kind_at fs l'.
Proof.
  induction l as [|n rest IH]; intros fs c fs' H l' Hl.
  - destruct fs; simpl in H; [|discriminate]. injection H as <-.
    destruct l'; [congruence | reflexivity].
  - destruct fs as [?|es]; simpl in H; [discriminate|].
    destruct (lookup_entry n es) as [child|] eqn:E.
    + destruct (set_at child rest c) as [child'|] eqn:S; [|discriminate].
      injection H as <-. destruct l' as [|m rest']; [reflexivity|].
      unfold kind_at. simpl. destruct (String.eqb_spec m n) as [->|D].
      * rewrite lookup_set_entry_same, E.
        apply (IH _ _ _ S). congruence.
      * now rewrite lookup_set_entry_other.
    + destruct rest; [|discriminate]. injection H as <-.
      destruct l' as [|m rest']; [reflexivity|].
      unfold kind_at. simpl. destruct (String.eqb_spec m n) as [->|D].
      * rewrite lookup_set_entry_same, E.
        destruct rest'; [congruence | reflexivity].
      * now rewrite lookup_set_entry_other.
Qed.

Lemma node_at_set_file (l : loc) :
  forall fs c fs', set_at fs l c = Some fs' ->
  forall l' x, l' <> l -> node_at fs l' = Some (File x) ->
               node_at fs' l' = Some (File x).
Proof.
  induction l as [|n rest IH]; intros fs c fs' H l' x Hl Hx.
  - destruct fs; simpl in H; [|discriminate].
    destruct l'; [congruence | discriminate].
  - destruct fs as [?|es]; simpl in H; [discriminate|].
    destruct l' as [|m rest']; [discriminate|]. simpl in Hx.
    destruct (String.eqb_spec m n) as [->|D].
    + destruct (lookup_entry n es) as [child|] eqn:E; [|discriminate].
      destruct (set_at child rest c) as [child'|] eqn:S; [|discriminate].
      injection H as <-. simpl. rewrite lookup_set_entry_same.
      apply (IH _ _ _ S); [congruence | exact Hx].
    + assert (exists es', fs' = Dir (set_entry n es' es)) as [nd' ->].
      { destruct (lookup_entry n es) as [child|].
        - destruct (set_at child rest c) as [child'|]; [|discriminate].
          injection H as <-. now exists child'.
        - destruct rest; [|discriminate]. injection H as <-.
          now exists (File c). }
      simpl. now rewrite lookup_set_entry_other.
Qed.


Lemma set_at_twice (l : loc) :
  forall fs c fs' c', set_at fs l c = Some fs' ->
                      set_at fs' l c' = set_at fs l c'.
Proof.
  induction l as [|n rest IH]; intros fs c fs' c' H.
  - destruct fs; simpl in H; [|discriminate]. now injection H as <-.
  - destruct fs as [?|es]; simpl in H; [discriminate|]. simpl.
    destruct (lookup_entry n es) as [child|] eqn:E.
    + destruct (set_at child rest c) as [child'|] eqn:S; [|discriminate].
      injection H as <-. simpl. rewrite lookup_set_entry_same.
      rewrite (IH _ _ _ c' S).
      destruct (set_at child rest c'); [|reflexivity].
      now rewrite set_entry_twice.
    + destruct rest; [|discriminate]. injection H as <-.
      simpl. rewrite lookup_set_entry_same. simpl.
      now rewrite set_entry_twice.
Qed.

Lemma set_at_any_content (l : loc) :
  forall fs c fs' c', set_at fs l c = Some fs' ->
                      exists fs1, set_at fs l c' = Some fs1.
Proof.
  induction l as [|n rest IH]; intros fs c fs' c' H.
  - destruct fs; simpl in H; [|discriminate]. now exists (File c').
  - destruct fs as [?|es]; simpl in H; [discriminate|]. simpl.
    destruct (lookup_entry n es) as [child|] eqn:E.
    + destruct (set_at child rest c) as [child'|] eqn:S; [|discriminate].
      destruct (IH _ _ _ c' S) as [ch1 ->]. eauto.
    + destruct rest; [|discriminate]. eauto.
Qed.

Lemma set_at_not_dir (l : loc) :
  forall fs c fs', set_at fs l c = Some fs' -> kind_at fs l <> Some KDir.
Proof.
  induction l as [|n rest IH]; intros fs c fs' H.
  - destruct fs; simpl in H; [|discriminate]. discriminate.
  - destruct fs as [?|es]; simpl in H; [discriminate|].
    unfold kind_at. simpl.
    destruct (lookup_entry n es) as [child|] eqn:E; [|discriminate].
    destruct (set_at child rest c) as [child'|] eqn:S; [|discriminate].
    apply (IH _ _ _ S).
Qed.

Lemma kind_at_set_same (l : loc) (fs : node) (c : content) (fs' : node) :
  set_at fs l c = Some fs' -> kind_at fs' l = Some KFile.
Proof.
  intros H. unfold kind_at. now rewrite (node_at_set_same _ _ _ _ H).
Qed.

End FsFacts.

(** ** Path resolution *)

Module PathFacts.
Import PyStr PosixPath FS FsFacts.

Lemma walk_path_app (fs : filesystem) (a b : list string) :
  forall cur,
    walk_path fs cur (a ++ b)
    = match walk_path fs cur a with
      | Some l => walk_path fs l b
      | None => None
      end.
Proof.
  induction a as [|c a IH]; intros cur; [reflexivity|].
  cbn [app walk_path].
  destruct (kind_at fs cur) as [[|]|]; try reflexivity.
  destruct (String.eqb c "" || String.eqb c "."); [apply IH|].
  destruct (String.eqb c ".."); [apply IH|].
  destruct (kind_at fs (cur ++ [c])); [apply IH | reflexivity].
Qed.

(** Resolution looks at the kinds of the entries only. *)
Lemma walk_path_kinds (fs fs' : filesystem) :
  (forall l, kind_at fs' l = kind_at fs l) ->
  forall comps cur, walk_path fs' cur comps = walk_path fs cur comps.
Proof.
  intros Hk. induction comps as [|c comps IH]; intros cur; [reflexivity|].
  cbn [walk_path]. rewrite !Hk, !IH. reflexivity.
Qed.

Section OneFile.
(** Two file systems that differ by one place, which holds a file in the
    second and no directory in the first. *)
Variables (fs fs' : filesystem) (o : loc).
Hypothesis Hk : forall l, l <> o -> kind_at fs' l = kind_at fs l.
Hypothesis Ho' : kind_at fs' o = Some KFile.
Hypothesis Ho : kind_at fs o <> Some KDir.

Lemma walk_path_grows (comps : list string) :
  forall cur r, walk_path fs cur comps = Some r ->
                walk_path fs' cur comps = Some r.
Proof.
  induction comps as [|c comps IH]; intros cur r H; [exact H|].
  cbn [walk_path] in *.
  destruct (kind_at fs cur) as [[|]|] eqn:Kc; try discriminate.
  assert (Hc : cur <> o) by (intros ->; congruence).
  rewrite (Hk _ Hc), Kc.
  destruct (String.eqb c "" || String.eqb c "."); [now apply IH|].
  destruct (String.eqb c ".."); [now apply IH|].
  destruct (kind_at fs (cur ++ [c])) as [k|] eqn:Kn; [|discriminate].
  destruct (list_eq_dec string_dec (cur ++ [c]) o) as [E|E].
  - rewrite E, Ho'. rewrite <- E. now apply IH.
  - rewrite (Hk _ E), Kn. now apply IH.
Qed.


Lemma resolve_grows (p : string) (r : loc) :
  resolve fs p = Some r -> resolve fs' p = Some r.
Proof.
  unfold resolve. destruct (String.eqb p ""); [discriminate|].
  apply walk_path_grows.
Qed.


End OneFile.

(** *** Resolution around [open(p, "w")] *)

Lemma set_at_resolve_grows (fs fs' : filesystem) (o : loc) (c : content)
      (p : string) (r : loc) :
  set_at fs o c = Some fs' ->
  resolve fs p = Some r -> resolve fs' p = Some r.
Proof.
  intros H. apply resolve_grows with o.
  - intros l Hl. now apply kind_at_set_other with o c.
  - now apply kind_at_set_same with fs c.
  - now apply set_at_not_dir with c fs'.
Qed.


Lemma valid_name_facts (n : string) :
  valid_name n = true ->
  String.eqb n "" = false /\ String.eqb n "." = false
  /\ String.eqb n ".." = false /\ has_char slash n = false.
Proof.
  unfold valid_name. rewrite !andb_true_iff, !negb_true_iff. tauto.
Qed.

(** The place that [open(p, "w")] finds is the place that [p] names once
    the file is there. *)
Lemma locate_then_resolve (fs fs' : filesystem) (p : string) (o : loc)
      (c : content) :
  locate_for_writing fs p = Some o ->
  set_at fs o c = Some fs' ->
  resolve fs' p = Some o.
Proof.
  unfold locate_for_writing, resolve. intros L S.
  pose proof (app_removelast_last "" (StrFacts.split_not_nil slash p)) as Hp.
  destruct (String.eqb_spec p "") as [->|_].
  { simpl in L. discriminate. }
  remember (last (split slash p) "") as name eqn:Hn.
  remember (removelast (split slash p)) as init eqn:Hi.
  rewrite Hp. clear Hp Hn Hi.
  destruct (creatable_name name) eqn:Cn; [|discriminate].
  assert (V : valid_name name = true).
  { unfold creatable_name in Cn. now apply andb_true_iff in Cn. }
  destruct (walk_path fs [] init) as [d|] eqn:Wd; [|discriminate].
  destruct (kind_at fs d) as [[|]|] eqn:Kd; try discriminate.
  injection L as <-.
  rewrite walk_path_app.
  assert (G : walk_path fs' [] init = Some d).
  { revert Wd. apply walk_path_grows with (d ++ [name]).
    - intros l Hl. now apply kind_at_set_other with (2 := Hl) (1 := S).
    - now apply kind_at_set_same with fs c.
    - now apply set_at_not_dir with c fs'. }
  rewrite G. cbn [walk_path].
  assert (Hd : d <> d ++ [name]).
  { intros E. apply (f_equal (@List.length string)) in E.
    rewrite length_app in E. simpl in E. lia. }
  rewrite (kind_at_set_other _ _ _ _ S _ Hd), Kd.
  destruct (valid_name_facts _ V) as [-> [-> [-> _]]]. simpl.
  now rewrite (kind_at_set_same _ _ _ _ S).
Qed.

Lemma open_for_writing_inv (fs fs' : filesystem) (p : string) (o : loc) :
  open_for_writing fs p = Some (fs', o) ->
  locate_for_writing fs p = Some o /\ set_at fs o (Text "") = Some fs'.
Proof.
  unfold open_for_writing. intros H.
  destruct (passable p); [|discriminate].
  destruct (locate_for_writing fs p) as [l|]; [|discriminate].
  destruct (set_at fs l (Text "")) as [f|] eqn:S; [|discriminate].
  injection H as <- <-. now split.
Qed.

End PathFacts.

(** ** The walk *)

Module WalkFacts.
Import PyStr PosixPath FS Dumper FsFacts PathFacts CollectFacts.

Lemma join_valid (top n : string) :
  valid n -> join top n = (dir_prefix top ++ n)%string.
Proof.
  intros V. destruct (valid_name_facts _ V) as [_ [_ [_ Hs]]].
  unfold join, dir_prefix. rewrite (StrFacts.startswith_plain _ Hs).
  destruct (String.eqb top "" || endswith top "/"); [reflexivity|].
  now rewrite StrFacts.append_assoc.
Qed.

Lemma dir_prefix_join (top n : string) :
  valid n ->
  dir_prefix (join top n) = (dir_prefix top ++ n ++ "/")%string.
Proof.
  intros V. rewrite (join_valid top n V).
  destruct (valid_name_facts _ V) as [Hn [_ [_ Hs]]].
  apply String.eqb_neq in Hn. unfold dir_prefix at 1.
  destruct (String.eqb_spec (dir_prefix top ++ n) "") as [E|_].
  { apply StrFacts.append_eq_nil in E. now destruct E. }
  destruct (endswith (dir_prefix top ++ n) "/") eqn:E.
  { apply StrFacts.endswith_last_char in E.
    rewrite StrFacts.last_char_append in E by exact Hn.
    now contradiction (StrFacts.last_char_plain _ _ Hs). }
  simpl. now rewrite StrFacts.append_assoc.
Qed.

(** The name of a file is what follows the last slash of its path. *)
Lemma basename_join (top n : string) :
  valid n -> basename (join top n) = n.
Proof.
  intros V. rewrite (join_valid top n V).
  destruct (valid_name_facts _ V) as [_ [_ [_ Hs]]].
  unfold basename, dir_prefix.
  destruct (String.eqb_spec top "") as [->|_]; cbn [orb].
  { cbn [append]. now rewrite (StrFacts.split_plain _ _ Hs). }
  destruct (endswith top "/") eqn:E.
  - apply StrFacts.endswith_iff in E. destruct E as [pre ->].
    rewrite StrFacts.append_assoc.
    change ("/" ++ n)%string with (String slash n).
    rewrite StrFacts.split_append, (StrFacts.split_plain _ _ Hs).
    apply last_last.
  - rewrite StrFacts.append_assoc.
    change ("/" ++ n)%string with (String slash n).
    rewrite StrFacts.split_append, (StrFacts.split_plain _ _ Hs).
    apply last_last.
Qed.

(** *** Well-formed trees *)

Lemma distinct_nodup (l : list string) : distinct l = true -> NoDup l.
Proof.
  induction l as [|x l IH]; simpl; intros H; [constructor|].
  apply andb_true_iff in H. destruct H as [Hx Hl].
  constructor; [|now apply IH]. intros Hi.
  apply negb_true_iff in Hx. unfold mem_string in Hx.
  assert (existsb (String.eqb x) l = true); [|congruence].
  apply existsb_exists. exists x. split; [exact Hi|].
  apply String.eqb_refl.
Qed.

Lemma wf_dir (es : entries) :
  wf_node (Dir es) = true ->
  Forall (fun e => valid (fst e)) es
  /\ NoDup (map fst es)
  /\ Forall (fun e => wf_node (snd e) = true) es.
Proof.
  simpl. rewrite !andb_true_iff. intros [[H1 H2] H3].
  repeat split.
  - apply Forall_forall. now apply forallb_forall.
  - now apply distinct_nodup.
  - apply Forall_forall. now apply forallb_forall.
Qed.

Lemma lookup_entry_in (n : string) (es : entries) (nd : node) :
  lookup_entry n es = Some nd -> In (n, nd) es.
Proof.
  induction es as [|[m x] es IH]; simpl; [discriminate|].
  destruct (String.eqb_spec m n) as [->|_].
  - intros H. injection H as ->. now left.
  - intros H. right. now apply IH.
Qed.

Lemma wf_node_at (l : loc) :
  forall fs nd, wf_node fs = true -> node_at fs l = Some nd ->
                wf_node nd = true.
Proof.
  induction l as [|n l IH]; intros fs nd W H.
  - simpl in H. now injection H as <-.
  - destruct fs as [c|es]; [discriminate|]. simpl in H.
    destruct (lookup_entry n es) as [child|] eqn:E; [|discriminate].
    apply (IH child); [|exact H].
    destruct (wf_dir _ W) as [_ [_ F]]. rewrite Forall_forall in F.
    apply (F (n, child)). now apply lookup_entry_in.
Qed.

Lemma filenames_valid (es : entries) :
  Forall (fun e => valid (fst e)) es -> Forall valid (filenames es).
Proof.
  intros F. unfold filenames. apply Forall_forall. intros n Hn.
  apply in_map_iff in Hn. destruct Hn as [e [<- He]].
  apply filter_In in He. destruct He as [He _].
  rewrite Forall_forall in F. now apply F.
Qed.

(** The names that the walk reports are file names. *)
Lemma walk_node_names (nd : node) :
  forall top folder dirs files,
    wf_node nd = true ->
    In (folder, dirs, files) (walk_node top nd) ->
    Forall valid files.
Proof.
  induction nd as [c|es IH] using node_induction;
    intros top folder dirs files W Hi; [contradiction|].
  destruct (wf_dir _ W) as [V [_ Wc]]. simpl in Hi.
  destruct Hi as [Hi|Hi].
  - injection Hi as _ _ <-. now apply filenames_valid.
  - apply in_flat_map in Hi. destruct Hi as [e [He Hi]].
    rewrite Forall_forall in IH, Wc.
    now apply (IH e He _ _ _ _ (Wc e He) Hi).
Qed.

(** *** The selection under a directory *)

Lemma map_flat_map {A B C : Type} (f : B -> C) (g : A -> list B)
      (l : list A) :
  map f (flat_map g l) = flat_map (fun x => map f (g x)) l.
Proof.
  induction l as [|x l IH]; simpl; [reflexivity|].
  now rewrite map_app, IH.
Qed.

Lemma flat_map_ext_in {A B : Type} (f g : A -> list B) (l : list A) :
  (forall x, In x l -> f x = g x) -> flat_map f l = flat_map g l.
Proof.
  induction l as [|x l IH]; intros H; simpl; [reflexivity|].
  rewrite (H x), IH; [reflexivity | | now left].
  intros y Hy. apply H. now right.
Qed.

Lemma collect_flat_map {A : Type} (f : A -> list triple) (l : list A) :
  collect (flat_map f l) = flat_map (fun x => collect (f x)) l.
Proof.
  induction l as [|x l IH]; simpl; [reflexivity|].
  now rewrite collect_app, IH.
Qed.

(** The walk selects the relative paths, each after the prefix of the
    directory walked. *)
Lemma collect_walk_node (nd : node) :
  forall top,
    wf_node nd = true ->
    collect (walk_node top nd)
    = map (fun r => (dir_prefix top ++ r)%string) (rels nd).
Proof.
  induction nd as [c|es IH] using node_induction; intros top W;
    [reflexivity|].
  destruct (wf_dir _ W) as [V [_ Wc]].
  cbn [walk_node rels]. rewrite collect_cons, collect_flat_map, map_app.
  f_equal.
  - unfold selected. cbn [fst snd]. apply map_ext_in. intros n Hn.
    apply join_valid. apply filter_In in Hn. destruct Hn as [Hn _].
    pose proof (filenames_valid es V) as F. rewrite Forall_forall in F.
    now apply F.
  - rewrite map_flat_map. apply flat_map_ext_in. intros e He.
    rewrite Forall_forall in IH, V, Wc.
    rewrite (IH e He _ (Wc e He)), map_map.
    apply map_ext. intros r. rewrite (dir_prefix_join top _ (V e He)).
    now rewrite !StrFacts.append_assoc.
Qed.

Lemma first_component (a : string) :
  forall b x y,
    has_char slash a = false -> has_char slash b = false ->
    (a ++ String slash x)%string = (b ++ String slash y)%string ->
    a = b /\ x = y.
Proof.
  induction a as [|c a IH]; intros [|d b] x y Ha Hb H; simpl in *.
  - injection H as ->. now split.
  - injection H as <- _. now rewrite Ascii.eqb_refl in Hb.
  - injection H as -> _. now rewrite Ascii.eqb_refl in Ha.
  - injection H as -> H.
    destruct (Ascii.eqb d slash); [discriminate|].
    destruct (IH b x y Ha Hb H) as [-> ->]. now split.
Qed.

Lemma nodup_map_injective {A B : Type} (f : A -> B) (l : list A) :
  (forall x y, f x = f y -> x = y) -> NoDup l -> NoDup (map f l).
Proof.
  intros Hf N. induction N as [|x l Hx N IH]; simpl; constructor.
  - intros Hi. apply in_map_iff in Hi. destruct Hi as [y [E Hy]].
    apply Hf in E. now subst.
  - exact IH.
Qed.

Lemma rels_below (es : entries) (p : string) :
  In p (flat_map
          (fun e => map (fun r => (fst e ++ "/" ++ r)%string)
                        (rels (snd e))) es) ->
  exists e r, In e es /\ p = (fst e ++ String slash r)%string.
Proof.
  intros H. apply in_flat_map in H. destruct H as [e [He H]].
  apply in_map_iff in H. destruct H as [r [<- _]]. now exists e, r.
Qed.

(** A well-formed tree selects no path twice. *)
Lemma rels_nodup (nd : node) : wf_node nd = true -> NoDup (rels nd).
Proof.
  induction nd as [c|es IH] using node_induction; intros W;
    [constructor|].
  destruct (wf_dir _ W) as [V [N Wc]]. cbn [rels].
  assert (Hs : forall e, In e es -> has_char slash (fst e) = false).
  { intros e He. rewrite Forall_forall in V.
    now destruct (valid_name_facts _ (V e He)) as [_ [_ [_ H]]]. }
  apply NoDup_app.
  - apply NoDup_filter. unfold filenames.
    clear - N. induction es as [|[n x] es IHes]; simpl; [constructor|].
    inversion N as [|? ? Hn N']; subst.
    destruct (negb (is_dir x)); simpl; [|now apply IHes].
    constructor; [|now apply IHes]. intros Hi. apply Hn.
    apply in_map_iff in Hi. destruct Hi as [e [<- He]].
    apply filter_In in He. destruct He as [He _]. now apply in_map.
  - clear V W. induction es as [|e es IHes]; simpl; [constructor|].
    inversion N as [|? ? Hn N']; subst.
    inversion IH as [|? ? IHe IH']; subst.
    inversion Wc as [|? ? We Wc']; subst.
    apply NoDup_app.
    + apply nodup_map_injective; [|now apply IHe].
      intros x y E. apply StrFacts.append_inv_head in E.
      now injection E.
    + apply IHes; trivial. intros e' He'. apply Hs. now right.
    + intros p Hp Hq. apply in_map_iff in Hp.
      destruct Hp as [r [<- _]].
      apply rels_below in Hq. destruct Hq as [e' [r' [He' E]]].
      apply first_component in E.
      * destruct E as [E _]. apply Hn. rewrite E. now apply in_map.
      * apply Hs. now left.
      * apply Hs. now right.
  - intros p Hp Hq. apply filter_In in Hp. destruct Hp as [Hp _].
    apply rels_below in Hq. destruct Hq as [e [r [He ->]]].
    pose proof (filenames_valid es V) as F. rewrite Forall_forall in F.
    destruct (valid_name_facts _ (F _ Hp)) as [_ [_ [_ H]]].
    rewrite StrFacts.has_char_append in H. simpl in H.
    rewrite orb_true_r in H. discriminate.
Qed.

Lemma collect_walk_node_nodup (nd : node) (top : string) :
  wf_node nd = true -> NoDup (collect (walk_node top nd)).
Proof.
  intros W. rewrite (collect_walk_node nd top W).
  apply nodup_map_injective; [|now apply rels_nodup].
  intros x y. apply StrFacts.append_inv_head.
Qed.

(** *** The walk after a file was written *)








End WalkFacts.

(** ** The run *)

Module RunFacts.
Import PyStr PosixPath FS Dumper FsFacts PathFacts CollectFacts EmitFacts.
Local Open Scope string_scope.



Section Run.
Variable peek : string -> string + string.
Variables (fs : filesystem) (root_dir output_file : string).

Let r : run :=
  collect_source_files peek fs (Some root_dir) (Some output_file).
Let paths : list string := collected_paths fs root_dir.

(** The three ways of a run. *)
Lemma run_walk_raised :
  has_char NUL root_dir = true ->
  r = {| fs_after := fs; trace := []; result := Raised ValueError |}.
Proof.
  intros H. unfold r, collect_source_files, walk_error. cbn [default].
  now rewrite H.
Qed.

Lemma run_open_raised :
  has_char NUL root_dir = false ->
  open_for_writing fs output_file = None ->
  r = {| fs_after := fs;
         trace := [(output_file, W)];
         result := Raised (open_error output_file) |}.
Proof.
  intros N H. unfold r, collect_source_files, walk_error. cbn [default].
  now rewrite N, H.
Qed.

Lemma run_opened (fs_open : filesystem) (out : loc) :
  has_char NUL root_dir = false ->
  open_for_writing fs output_file = Some (fs_open, out) ->
  let e := emit peek fs_open out paths
                {| written := ""; opened := [(output_file, W)] |} in
  r = {| fs_after := close fs_open out (fst e);
         trace := opened (fst e);
         result := match snd e with
                   | None => Returned output_file
                   | Some x => Raised x
                   end |}.
Proof.
  intros N H. cbv zeta. unfold r, collect_source_files, walk_error.
  cbn [default]. rewrite N, H. unfold paths, collected_paths.
  now destruct (emit peek fs_open out _ _) as [st failure].
Qed.

(** A run that returns has walked the tree, opened the document and
    written every block. *)
Lemma returned_inv (v : string) :
  result r = Returned v ->
  v = output_file
  /\ has_char NUL root_dir = false
  /\ exists fs_open out,
       open_for_writing fs output_file = Some (fs_open, out)
       /\ smooth paths (reads peek fs_open out paths "") = true.
Proof.
  destruct (has_char NUL root_dir) eqn:N.
  { rewrite (run_walk_raised N). discriminate. }
  destruct (open_for_writing fs output_file) as [[fs_open out]|] eqn:O.
  - rewrite (run_opened _ _ N O). cbn [result]. rewrite failure_emit.
    cbn [written].
    destruct (smooth paths (reads peek fs_open out paths "")) eqn:Sm;
      [|discriminate].
    intros E. injection E as <-. split; [reflexivity|].
    split; [reflexivity|]. now exists fs_open, out.
  - rewrite (run_open_raised N O). discriminate.
Qed.

Lemma returned_intro (fs_open : filesystem) (out : loc) :
  has_char NUL root_dir = false ->
  open_for_writing fs output_file = Some (fs_open, out) ->
  smooth paths (reads peek fs_open out paths "") = true ->
  result r = Returned output_file.
Proof.
  intros N O Sm. rewrite (run_opened _ _ N O). cbn [result].
  rewrite failure_emit. cbn [written]. now rewrite Sm.
Qed.

Lemma opened_result (fs_open : filesystem) (out : loc) :
  has_char NUL root_dir = false ->
  open_for_writing fs output_file = Some (fs_open, out) ->
  result r = Returned output_file \/ result r = Raised UnicodeEncodeError.
Proof.
  intros N O. rewrite (run_opened _ _ N O). cbn [result].
  rewrite failure_emit. destruct (smooth _ _); [now left | now right].
Qed.

Lemma close_spec (fs_open : filesystem) (out : loc) (st : out_state) :
  open_for_writing fs output_file = Some (fs_open, out) ->
  set_at fs out (Text (written st)) = Some (close fs_open out st).
Proof.
  intros O. apply open_for_writing_inv in O. destruct O as [_ S].
  unfold close. rewrite (set_at_twice _ _ _ _ (Text (written st)) S).
  destruct (set_at_any_content _ _ _ _ (Text (written st)) S) as [f ->].
  reflexivity.
Qed.

(** The file system after a run that has opened the document. *)
Lemma after_opened (fs_open : filesystem) (out : loc) :
  has_char NUL root_dir = false ->
  open_for_writing fs output_file = Some (fs_open, out) ->
  set_at fs out
         (Text (written_blocks paths (reads peek fs_open out paths "")))
  = Some (fs_after r).
Proof.
  intros N O. rewrite (run_opened _ _ N O). cbn [fs_after].
  rewrite <- (close_spec _ _ _ O), written_emit. reflexivity.
Qed.

(** Once opened the document is empty; after the run it holds what the
    loop has written. *)
Lemma document_any (fs_open : filesystem) (out : loc) :
  has_char NUL root_dir = false ->
  open_for_writing fs output_file = Some (fs_open, out) ->
  file_text fs_open output_file = Some ""
  /\ file_text (fs_after r) output_file
     = Some (written_blocks paths (reads peek fs_open out paths "")).
Proof.
  intros N O.
  pose proof (open_for_writing_inv _ _ _ _ O) as [L S].
  split.
  - unfold file_text.
    rewrite (locate_then_resolve _ _ _ _ _ L S).
    now rewrite (node_at_set_same _ _ _ _ S).
  - pose proof (after_opened _ _ N O) as C.
    unfold file_text.
    rewrite (locate_then_resolve _ _ _ _ _ L C).
    now rewrite (node_at_set_same _ _ _ _ C).
Qed.

(** After a run that returns the document holds the blocks of the sorted
    paths, and every path has been opened. *)
Lemma document_spec (fs_open : filesystem) (out : loc) (v : string) :
  result r = Returned v ->
  open_for_writing fs output_file = Some (fs_open, out) ->
  file_text (fs_after r) output_file
  = Some (blocks paths (reads peek fs_open out paths ""))
  /\ trace r = ((output_file, W) :: map (fun p => (p, R)) paths)%list.
Proof.
  intros Hr O. destruct (returned_inv _ Hr) as [_ [N [f [o [O' Sm]]]]].
  rewrite O in O'. injection O' as <- <-. split.
  - destruct (document_any _ _ N O) as [_ ->].
    now rewrite (written_blocks_smooth _ _ Sm).
  - rewrite (run_opened _ _ N O). cbn [trace].
    now rewrite opened_emit.
Qed.

Lemma trace_spec :
  has_char NUL root_dir = false ->
  filter (fun e => is_write (snd e)) (trace r) = [(output_file, W)].
Proof.
  intros N.
  destruct (open_for_writing fs output_file) as [[fs_open out]|] eqn:O.
  - rewrite (run_opened _ _ N O). cbn [trace]. now rewrite writes_emit.
  - now rewrite (run_open_raised N O).
Qed.


(** Reading, during the run, a file that is not the document. *)
Lemma read_other_file (fs_open : filesystem) (out : loc)
      (text p C : string) :
  open_for_writing fs output_file = Some (fs_open, out) ->
  file_text fs p = Some C ->
  resolve fs p <> Some out ->
  read_during peek fs_open out text p = inl (universal_newlines C).
Proof.
  intros O F D. apply open_for_writing_inv in O. destruct O as [_ S].
  unfold file_text in F. destruct (resolve fs p) as [l|] eqn:Rp;
    [|discriminate].
  destruct (node_at fs l) as [[[raw|]|]|] eqn:N; try discriminate.
  injection F as ->.
  assert (Hl : l <> out) by congruence.
  unfold read_during, read_text.
  rewrite (set_at_resolve_grows _ _ _ _ _ _ S Rp).
  destruct (loc_eq_dec l out) as [E|_]; [contradiction|].
  now rewrite (node_at_set_file _ _ _ _ S _ _ Hl N).
Qed.

End Run.

(** The document around the block of one path that the loop reaches. *)
Lemma document_around (peek : string -> string + string) (fs : filesystem)
      (root_dir output_file : string) (fs_open : filesystem) (out : loc)
      (before : list string) (p : string) (after : list string) :
  let r := collect_source_files peek fs (Some root_dir) (Some output_file) in
  let done := blocks before (reads peek fs_open out before "") in
  let x := attempt peek fs_open out (done ++ delimiter p) p in
  let rest := reads peek fs_open out after (done ++ block p x) in
  has_char NUL root_dir = false ->
  open_for_writing fs output_file = Some (fs_open, out) ->
  collected_paths fs root_dir = (before ++ p :: after)%list ->
  smooth before (reads peek fs_open out before "") = true ->
  block_ok p x = true ->
  file_text (fs_after r) output_file
  = Some (done ++ block p x ++ written_blocks after rest)
  /\ (smooth after rest = true ->
      result r = Returned output_file
      /\ written_blocks after rest = blocks after rest)
  /\ (result r = Returned output_file
      \/ result r = Raised UnicodeEncodeError).
Proof.
  intros r done x rest N O P Sb Bx.
  destruct (document_any peek fs root_dir output_file fs_open out N O)
    as [_ D].
  assert (E : reads peek fs_open out (before ++ p :: after) ""
              = (reads peek fs_open out before "" ++ x :: rest)%list).
  { rewrite reads_app. cbn [reads append]. reflexivity. }
  split; [|split].
  - unfold r. rewrite D, P, E.
    rewrite written_blocks_app by (now rewrite ?length_reads).
    cbn [written_blocks]. rewrite Bx.
    unfold block_ok in Bx. apply andb_true_iff in Bx.
    destruct Bx as [-> _]. reflexivity.
  - intros Sa. split; [|now apply written_blocks_smooth].
    apply (returned_intro peek fs root_dir output_file fs_open out N O).
    rewrite P, E, smooth_app by (now rewrite length_reads).
    cbn [smooth]. now rewrite Sb, Bx, Sa.
  - exact (opened_result peek fs root_dir output_file fs_open out N O).
Qed.


Lemma locate_last (fs : filesystem) (p : string) (o : loc) :
  locate_for_writing fs p = Some o -> last o "" = basename p.
Proof.
  unfold locate_for_writing, basename. intros L.
  destruct (creatable_name (last (split slash p) "")); [|discriminate].
  destruct (walk_path fs [] (removelast (split slash p))) as [d|];
    [|discriminate].
  destruct (kind_at fs d) as [[|]|]; try discriminate.
  injection L as <-. apply last_last.
Qed.

End RunFacts.

Import PyStr PosixPath FS Dumper.
Import FsFacts PathFacts CollectFacts EmitFacts WalkFacts SortFacts RunFacts.

(** * Facts about the walk and the document *)

Lemma os_walk_cases (fs : filesystem) (top : string) :
  wf fs = true ->
  os_walk fs top = []
  \/ exists nd, wf_node nd = true /\ os_walk fs top = walk_node top nd.
Proof.
  intros W. unfold wf in W. apply andb_true_iff in W. destruct W as [_ W].
  unfold os_walk. destruct (resolve fs top) as [l|]; [|now left].
  destruct (node_at fs l) as [nd|] eqn:N; [|now left].
  right. exists nd. split; [|reflexivity]. now apply (wf_node_at l fs).
Qed.

Lemma collected_paths_nodup (fs : filesystem) (root_dir : string) :
  wf fs = true -> NoDup (collected_paths fs root_dir).
Proof.
  intros W. unfold collected_paths. apply sorted_nodup.
  destruct (os_walk_cases fs root_dir W) as [->|[nd [Wn ->]]].
  - constructor.
  - now apply collect_walk_node_nodup.
Qed.

Lemma os_walk_names (fs : filesystem) (top folder : string)
      (dirs files : list string) :
  wf fs = true -> In (folder, dirs, files) (os_walk fs top) ->
  Forall valid files.
Proof.
  intros W H. destruct (os_walk_cases fs top W) as [E|[nd [Wn E]]];
    rewrite E in H; [contradiction|].
  now apply (walk_node_names nd top folder dirs files).
Qed.

(** ** Where the paths of the walk lead *)

Lemma in_lookup_entry (n : string) (nd : node) (es : entries) :
  NoDup (map fst es) -> In (n, nd) es -> lookup_entry n es = Some nd.
Proof.
  induction es as [|[m x] es IH]; intros N H; [contradiction|].
  inversion N as [|? ? Hm N']; subst. simpl.
  destruct H as [H|H].
  - injection H as -> ->. now rewrite String.eqb_refl.
  - destruct (String.eqb_spec m n) as [->|_]; [|now apply IH].
    contradiction Hm. change n with (fst (n, nd)). now apply in_map.
Qed.

Lemma append_char_not_empty (a : string) (c : ascii) (b : string) :
  String.eqb (a ++ String c b) "" = false.
Proof. now destruct a. Qed.

Lemma walk_path_name (fs : filesystem) (l : loc) (n : string) (k : kind) :
  kind_at fs l = Some KDir -> valid n -> kind_at fs (l ++ [n]) = Some k ->
  walk_path fs l [n] = Some (l ++ [n]).
Proof.
  intros Kd V Kn. cbn [walk_path]. rewrite Kd.
  destruct (valid_name_facts _ V) as [-> [-> [-> _]]]. cbn [orb].
  now rewrite Kn.
Qed.

(** A name joined to the path of a directory names the entry of that name
    in the directory. *)
Lemma resolve_join (fs : filesystem) (top : string) (l : loc) (n : string)
      (k : kind) :
  resolve fs top = Some l -> kind_at fs l = Some KDir -> valid n ->
  kind_at fs (l ++ [n]) = Some k ->
  resolve fs (join top n) = Some (l ++ [n]).
Proof.
  intros Rt Kd V Kn. rewrite (join_valid top n V).
  destruct (valid_name_facts _ V) as [_ [_ [_ Hs]]].
  unfold resolve in *. unfold dir_prefix.
  destruct (String.eqb_spec top "") as [->|_]; [discriminate|]. cbn [orb].
  destruct (endswith top "/") eqn:E.
  - apply StrFacts.endswith_iff in E. destruct E as [pre ->].
    change (pre ++ "/")%string with (pre ++ String slash "")%string in *.
    rewrite StrFacts.append_assoc. cbn [append].
    rewrite append_char_not_empty.
    rewrite StrFacts.split_append in *.
    rewrite (StrFacts.split_plain _ _ Hs). cbn [split] in Rt.
    rewrite walk_path_app in *.
    destruct (walk_path fs [] (split slash pre)) as [l1|]; [|discriminate].
    cbn [walk_path] in Rt.
    destruct (kind_at fs l1) as [[|]|]; try discriminate.
    cbn [String.eqb orb] in Rt. injection Rt as ->.
    now apply walk_path_name with k.
  - rewrite StrFacts.append_assoc.
    change ("/" ++ n)%string with (String slash n).
    rewrite append_char_not_empty, StrFacts.split_append.
    rewrite (StrFacts.split_plain _ _ Hs), walk_path_app, Rt.
    now apply walk_path_name with k.
Qed.

(** Every item of the walk is the listing of a directory that its path
    names. *)
Lemma walk_node_resolves (fs : filesystem) (nd : node) :
  forall top l folder dirs files,
    wf_node nd = true ->
    resolve fs top = Some l -> node_at fs l = Some nd ->
    In (folder, dirs, files) (walk_node top nd) ->
    exists l' es,
      resolve fs folder = Some l' /\ node_at fs l' = Some (Dir es)
      /\ wf_node (Dir es) = true
      /\ dirs = dirnames es /\ files = filenames es.
Proof.
  induction nd as [c|es IH] using node_induction;
    intros top l folder dirs files W Rt N Hi; [contradiction|].
  cbn [walk_node] in Hi. destruct Hi as [Hi|Hi].
  - injection Hi as <- <- <-. now exists l, es.
  - apply in_flat_map in Hi. destruct Hi as [[n child] [He Hi]].
    cbn [fst snd] in Hi.
    destruct (wf_dir _ W) as [V [Nd Wc]].
    rewrite Forall_forall in IH, V, Wc.
    assert (L : lookup_entry n es = Some child)
      by now apply in_lookup_entry.
    assert (Nc : node_at fs (l ++ [n]) = Some child).
    { rewrite node_at_app, N. cbn [node_at]. now rewrite L. }
    apply (IH (n, child) He (join top n) (l ++ [n]) folder dirs files);
      trivial.
    + apply (Wc (n, child) He).
    + apply resolve_join with (kind_of child); trivial.
      * unfold kind_at. now rewrite N.
      * apply (V (n, child) He).
      * unfold kind_at. now rewrite Nc.
Qed.

Lemma os_walk_resolves (fs : filesystem) (root folder : string)
      (dirs files : list string) :
  wf fs = true ->
  In (folder, dirs, files) (os_walk fs root) ->
  exists l es,
    resolve fs folder = Some l /\ node_at fs l = Some (Dir es)
    /\ wf_node (Dir es) = true
    /\ dirs = dirnames es /\ files = filenames es.
Proof.
  intros W Hi. unfold wf in W. apply andb_true_iff in W.
  destruct W as [_ W]. unfold os_walk in Hi.
  destruct (resolve fs root) as [l|] eqn:Rt; [|contradiction].
  destruct (node_at fs l) as [nd|] eqn:N; [|contradiction].
  apply (walk_node_resolves fs nd root l); trivial.
  now apply (wf_node_at l fs).
Qed.

Lemma in_filenames (es : entries) (n : string) :
  In n (filenames es) -> exists c, In (n, File c) es.
Proof.
  unfold filenames. intros H. apply in_map_iff in H.
  destruct H as [[m [c|sub]] [E H]]; apply filter_In in H;
    destruct H as [H K]; simpl in *; [|discriminate].
  subst. now exists c.
Qed.

Lemma in_dirnames (es : entries) (n : string) :
  In n (dirnames es) -> exists sub, In (n, Dir sub) es.
Proof.
  unfold dirnames. intros H. apply in_map_iff in H.
  destruct H as [[m [c|sub]] [E H]]; apply filter_In in H;
    destruct H as [H K]; simpl in *; [discriminate|].
  subst. now exists sub.
Qed.

(** A name of a directory listing, joined to the path of the directory,
    names the entry of that name. *)
Lemma listed_entry_resolves (fs : filesystem) (folder : string) (l : loc)
      (es : entries) (n : string) (nd : node) :
  resolve fs folder = Some l -> node_at fs l = Some (Dir es) ->
  wf_node (Dir es) = true -> In (n, nd) es ->
  resolve fs (join folder n) = Some (l ++ [n])
  /\ node_at fs (l ++ [n]) = Some nd.
Proof.
  intros Rf N We He.
  destruct (wf_dir _ We) as [V [Nd _]]. rewrite Forall_forall in V.
  assert (Nn : node_at fs (l ++ [n]) = Some nd).
  { rewrite node_at_app, N. cbn [node_at].
    now rewrite (in_lookup_entry n nd es Nd He). }
  split; [|exact Nn].
  apply resolve_join with (kind_of nd); trivial.
  - unfold kind_at. now rewrite N.
  - apply (V (n, nd) He).
  - unfold kind_at. now rewrite Nn.
Qed.

(** A collected path names a file, by the name it was collected for. *)
Lemma collected_path_resolves (fs : filesystem) (root_dir p : string) :
  wf fs = true -> In p (collected_paths fs root_dir) ->
  exists l f c,
    resolve fs p = Some (l ++ [f]) /\ node_at fs (l ++ [f]) = Some (File c)
    /\ qualifies f = true /\ valid f /\ basename p = f.
Proof.
  intros W Hp. unfold collected_paths in Hp.
  rewrite sorted_in, in_collect in Hp.
  destruct Hp as [folder [dirs [files [f [Hi [Hf [Hq ->]]]]]]].
  destruct (os_walk_resolves fs root_dir folder dirs files W Hi)
    as [l [es [Rf [N [We [_ Ef]]]]]].
  rewrite Ef in Hf. destruct (in_filenames es f Hf) as [c He].
  destruct (listed_entry_resolves fs folder l es f (File c) Rf N We He)
    as [R1 R2].
  assert (V : valid f).
  { destruct (wf_dir _ We) as [V _]. rewrite Forall_forall in V.
    apply (V (f, File c) He). }
  exists l, f, c. repeat split; trivial. now apply basename_join.
Qed.

Lemma startswith_slash_append (n x : string) :
  n <> "" -> startswith (n ++ x) "/" = startswith n "/".
Proof. destruct n as [|c n]; [congruence|]. reflexivity. Qed.

Lemma rels_relative (nd : node) (r : string) :
  wf_node nd = true -> In r (rels nd) ->
  r <> "" /\ startswith r "/" = false.
Proof.
  destruct nd as [c|es]; intros W H; [contradiction|].
  destruct (wf_dir _ W) as [V _]. cbn [rels] in H.
  apply in_app_or in H. destruct H as [H|H].
  - apply filter_In in H. destruct H as [H _].
    pose proof (filenames_valid es V) as F. rewrite Forall_forall in F.
    destruct (valid_name_facts _ (F r H)) as [Hn [_ [_ Hs]]].
    split; [now apply String.eqb_neq | now apply StrFacts.startswith_plain].
  - apply rels_below in H. destruct H as [e [r' [He ->]]].
    rewrite Forall_forall in V.
    destruct (valid_name_facts _ (V e He)) as [Hn [_ [_ Hs]]].
    apply String.eqb_neq in Hn. split.
    + intros E. apply StrFacts.append_eq_nil in E. now destruct E.
    + rewrite startswith_slash_append by exact Hn.
      now apply StrFacts.startswith_plain.
Qed.

Lemma in_filenames_intro (es : entries) (n : string) (c : content) :
  In (n, File c) es -> In n (filenames es).
Proof.
  intros H. unfold filenames. apply in_map_iff.
  exists (n, File c). split; [reflexivity|]. now apply filter_In.
Qed.

(** The files below a directory are among its relative paths. *)
Lemma rels_complete (names : list string) :
  forall nd f c,
    node_at nd (names ++ [f]) = Some (File c) -> qualifies f = true ->
    In (String.concat "/" (names ++ [f])) (rels nd).
Proof.
  induction names as [|n names IH]; intros nd f c N Hq;
    (destruct nd as [x|es]; [discriminate|]); cbn [app node_at] in N;
    cbn [rels]; apply in_or_app.
  - left. destruct (lookup_entry f es) as [child|] eqn:L; [|discriminate].
    cbn [node_at] in N. injection N as ->. cbn [String.concat].
    apply filter_In. split; [|exact Hq].
    apply in_filenames_intro with c. now apply lookup_entry_in.
  - right. destruct (lookup_entry n es) as [child|] eqn:L; [|discriminate].
    apply in_flat_map. exists (n, child).
    split; [now apply lookup_entry_in|]. cbn [fst snd].
    apply in_map_iff. exists (String.concat "/" (names ++ [f])).
    split; [|now apply (IH child f c)].
    cbn [app String.concat]. destruct (names ++ [f]) eqn:E; [|reflexivity].
    now destruct names.
Qed.

(** A qualifying file below the directory that the root names is
    collected. *)
Lemma file_below_the_root_is_collected
      (fs : filesystem) (root_dir : string) (l0 : loc) (nd : node)
      (names : list string) (f : string) (c : content) :
  resolve fs root_dir = Some l0 -> node_at fs l0 = Some nd ->
  wf_node nd = true ->
  node_at nd (names ++ [f]) = Some (File c) ->
  qualifies f = true ->
  In (dir_prefix root_dir ++ String.concat "/" (names ++ [f]))%string
     (collected_paths fs root_dir).
Proof.
  intros R0 N0 Wn N Hq. unfold collected_paths. rewrite sorted_in.
  unfold os_walk. rewrite R0, N0, (collect_walk_node nd root_dir Wn).
  apply in_map. now apply rels_complete with c.
Qed.

Lemma wf_node_of_wf (fs : filesystem) : wf fs = true -> wf_node fs = true.
Proof. unfold wf. intros W. apply andb_true_iff in W. tauto. Qed.

(** ** The document and the files *)

Lemma locate_resolve (fs : filesystem) (p : string) (o : loc) (k : kind) :
  locate_for_writing fs p = Some o -> kind_at fs o = Some k ->
  resolve fs p = Some o.
Proof.
  unfold locate_for_writing, resolve. intros L K.
  pose proof (app_removelast_last "" (StrFacts.split_not_nil slash p)) as Hp.
  destruct (String.eqb_spec p "") as [->|_].
  { simpl in L. discriminate. }
  remember (last (split slash p) "") as name eqn:Hn.
  remember (removelast (split slash p)) as init eqn:Hi.
  rewrite Hp. clear Hp Hn Hi.
  destruct (creatable_name name) eqn:Cn; [|discriminate].
  assert (V : valid name).
  { unfold creatable_name in Cn. now apply andb_true_iff in Cn. }
  destruct (walk_path fs [] init) as [d|] eqn:Wd; [|discriminate].
  destruct (kind_at fs d) as [[|]|] eqn:Kd; try discriminate.
  injection L as <-. rewrite walk_path_app, Wd.
  now apply walk_path_name with k.
Qed.

(** A collected path does not name the document when the document is no
    file yet, or has a name that does not qualify. *)
Lemma collected_path_is_not_the_document
      (fs : filesystem) (root_dir output_file : string) (out : loc)
      (p : string) :
  wf fs = true ->
  locate_for_writing fs output_file = Some out ->
  is_file fs output_file = false \/ qualifies (basename output_file) = false ->
  In p (collected_paths fs root_dir) ->
  exists l c, resolve fs p = Some l /\ node_at fs l = Some (File c)
              /\ l <> out.
Proof.
  intros W L Hc Hp.
  destruct (collected_path_resolves fs root_dir p W Hp)
    as [l [f [c [Rp [N [Hq _]]]]]].
  exists (l ++ [f]), c. split; [exact Rp|]. split; [exact N|].
  intros E. destruct Hc as [Hf|Hn].
  - assert (K : kind_at fs out = Some KFile)
      by (unfold kind_at; now rewrite <- E, N).
    unfold is_file in Hf. rewrite (locate_resolve fs output_file out _ L K) in Hf.
    rewrite K in Hf. discriminate.
  - rewrite <- (locate_last fs output_file out L), <- E, last_last in Hn.
    congruence.
Qed.

Lemma reads_map (peek : string -> string + string) (fs : filesystem)
      (out : loc) (g : string -> string + string) (paths : list string) :
  (forall p text, In p paths -> attempt peek fs out text p = g p) ->
  forall text, reads peek fs out paths text = map g paths.
Proof.
  induction paths as [|p paths IH]; intros H text; [reflexivity|].
  cbn [reads map]. rewrite H by now left.
  f_equal. apply IH. intros q t Hq. apply H. now right.
Qed.

(** The document, when every collected path names a file other than the
    document: the files are read as they were before the run. *)
Lemma document_without_itself
      (peek : string -> string + string) (fs : filesystem)
      (root_dir output_file : string) (fs_open : filesystem) (out : loc) :
  let r := collect_source_files peek fs (Some root_dir) (Some output_file) in
  let paths := collected_paths fs root_dir in
  let rs := map (fun p => try_write (read_text fs p)) paths in
  has_char NUL root_dir = false ->
  open_for_writing fs output_file = Some (fs_open, out) ->
  (forall p, In p paths ->
             exists l c, resolve fs p = Some l
                         /\ node_at fs l = Some (File c) /\ l <> out) ->
  reads peek fs_open out paths "" = rs
  /\ file_text (fs_after r) output_file = Some (written_blocks paths rs).
Proof.
  intros r paths rs Nr O H.
  pose proof (open_for_writing_inv _ _ _ _ O) as [L S].
  assert (E : reads peek fs_open out paths "" = rs).
  { apply reads_map. intros p text Hp.
    destruct (H p Hp) as [l [c [Rp [N D]]]].
    unfold attempt, read_during, read_text.
    rewrite (set_at_resolve_grows _ _ _ _ _ _ S Rp), Rp.
    destruct (loc_eq_dec l out) as [->|_]; [now contradiction D|].
    now rewrite (node_at_set_file _ _ _ _ S _ _ D N), N. }
  split; [exact E|].
  destruct (document_any peek fs root_dir output_file fs_open out Nr O)
    as [_ D].
  unfold r. rewrite D. fold paths. now rewrite E.
Qed.

Lemma read_text_elsewhere (fs fs' : filesystem) (o : loc) (c : content)
      (p : string) (l : loc) :
  set_at fs o c = Some fs' -> resolve fs p = Some l -> l <> o ->
  read_text fs' p = read_text fs p.
Proof.
  intros S Rp D. unfold read_text.
  rewrite (set_at_resolve_grows _ _ _ _ _ _ S Rp), Rp.
  pose proof (kind_at_set_other _ _ _ _ S _ D) as K. unfold kind_at in K.
  destruct (node_at fs l) as [[x|es]|] eqn:N.
  - now rewrite (node_at_set_file _ _ _ _ S _ _ D N).
  - now destruct (node_at fs' l) as [[x|es']|].
  - now destruct (node_at fs' l) as [[x|es']|].
Qed.

(** ** The order of the enumeration *)

Lemma agree_sym (fs fs' : filesystem) : agree fs fs' -> agree fs' fs.
Proof.
  intros H l. destruct (H l) as [K F]. split; [now symmetry|].
  intros c. now symmetry.
Qed.

Lemma content_eqb_eq (a b : content) : content_eqb a b = true -> a = b.
Proof.
  destruct a, b; simpl; intros H; try discriminate;
    apply String.eqb_eq in H; now subst.
Qed.

Lemma lookup_entry_none (n : string) (es : entries) :
  lookup_entry n es = None -> ~ In n (map fst es).
Proof.
  induction es as [|[m x] es IH]; simpl; intros H; [tauto|].
  destruct (String.eqb_spec m n) as [->|D]; [discriminate|].
  intros [E|E]; [contradiction | now apply IH].
Qed.

Lemma lookup_entry_some (n : string) (es : entries) (nd : node) :
  lookup_entry n es = Some nd -> In n (map fst es).
Proof.
  intros H. apply lookup_entry_in in H.
  change n with (fst (n, nd)). now apply in_map.
Qed.

(** Two directories with the same entries have the same entry, or none,
    under every name. *)
Lemma same_tree_lookup (es es' : entries) (n : string) :
  wf_node (Dir es) = true ->
  same_tree (Dir es) (Dir es') = true ->
  match lookup_entry n es, lookup_entry n es' with
  | Some child, Some child' => same_tree child child' = true
  | None, None => True
  | _, _ => False
  end.
Proof.
  intros W S. cbn [same_tree] in S. apply andb_true_iff in S.
  destruct S as [Hl Hf]. apply Nat.eqb_eq in Hl.
  rewrite forallb_forall in Hf.
  destruct (wf_dir _ W) as [_ [N _]].
  destruct (lookup_entry n es) as [child|] eqn:L.
  - specialize (Hf (n, child) (lookup_entry_in _ _ _ L)). cbn [fst snd] in Hf.
    now destruct (lookup_entry n es').
  - destruct (lookup_entry n es') as [child'|] eqn:L'; [|exact I].
    apply (lookup_entry_none _ _ L).
    assert (Hi : incl (map fst es') (map fst es)).
    { apply NoDup_length_incl; [exact N | rewrite !length_map; lia|].
      intros m Hm. apply in_map_iff in Hm. destruct Hm as [[k x] [<- Hk]].
      specialize (Hf (k, x) Hk). cbn [fst snd] in Hf.
      destruct (lookup_entry k es') as [y|] eqn:Lk; [|discriminate].
      now apply lookup_entry_some with y. }
    apply (Hi n). now apply lookup_entry_some with child'.
Qed.

Lemma wf_child (n : string) (es : entries) (child : node) :
  wf_node (Dir es) = true -> lookup_entry n es = Some child ->
  wf_node child = true.
Proof.
  intros W L. destruct (wf_dir _ W) as [_ [_ F]].
  rewrite Forall_forall in F. apply (F (n, child)).
  now apply lookup_entry_in.
Qed.

Lemma same_tree_node_at (l : loc) :
  forall a b,
    wf_node a = true -> same_tree a b = true ->
    match node_at a l, node_at b l with
    | Some x, Some y => same_tree x y = true
    | None, None => True
    | _, _ => False
    end.
Proof.
  induction l as [|n l IH]; intros a b W S; [exact S|].
  destruct a as [c|es], b as [c'|es']; try discriminate; [exact I|].
  cbn [node_at].
  pose proof (same_tree_lookup es es' n W S) as H.
  destruct (lookup_entry n es) as [child|] eqn:L,
           (lookup_entry n es') as [child'|]; try contradiction; [|exact I].
  apply IH; [now apply wf_child with n es | exact H].
Qed.

Lemma same_tree_agree (fs fs' : filesystem) :
  wf_node fs = true -> same_tree fs fs' = true -> agree fs fs'.
Proof.
  intros W S l. pose proof (same_tree_node_at l fs fs' W S) as H.
  unfold kind_at.
  destruct (node_at fs l) as [[c|es]|], (node_at fs' l) as [[c'|es']|];
    try contradiction; try discriminate; simpl.
  - apply content_eqb_eq in H. subst. split; [reflexivity | tauto].
  - split; [reflexivity|]. intros c. split; discriminate.
  - split; [reflexivity|]. intros c. split; discriminate.
Qed.

Lemma agree_resolve (fs fs' : filesystem) (p : string) :
  agree fs fs' -> resolve fs' p = resolve fs p.
Proof.
  intros A. unfold resolve. destruct (String.eqb p ""); [reflexivity|].
  apply walk_path_kinds. intros l. symmetry. apply A.
Qed.

Lemma agree_read_text (fs fs' : filesystem) (p : string) :
  agree fs fs' -> read_text fs' p = read_text fs p.
Proof.
  intros A. unfold read_text. rewrite (agree_resolve fs fs' p A).
  destruct (resolve fs p) as [l|]; [|reflexivity].
  destruct (A l) as [K F]. unfold kind_at in K.
  destruct (node_at fs l) as [[c|es]|] eqn:N.
  - now rewrite (proj1 (F c) eq_refl).
  - now destruct (node_at fs' l) as [[c'|es']|].
  - now destruct (node_at fs' l) as [[c'|es']|].
Qed.

Lemma agree_is_file (fs fs' : filesystem) (p : string) :
  agree fs fs' -> is_file fs' p = is_file fs p.
Proof.
  intros A. unfold is_file. rewrite (agree_resolve fs fs' p A).
  destruct (resolve fs p) as [l|]; [|reflexivity].
  now rewrite (proj1 (A l)).
Qed.

(** The paths selected below a directory lead to files below it. *)
Lemma rels_sound (nd : node) :
  forall r,
    wf_node nd = true -> In r (rels nd) ->
    exists names f c,
      node_at nd (names ++ [f]) = Some (File c) /\ qualifies f = true
      /\ r = String.concat "/" (names ++ [f]).
Proof.
  induction nd as [x|es IH] using node_induction; intros r W H;
    [contradiction|].
  destruct (wf_dir _ W) as [_ [N Wc]]. cbn [rels] in H.
  apply in_app_or in H. destruct H as [H|H].
  - apply filter_In in H. destruct H as [H Hq].
    destruct (in_filenames es r H) as [c He].
    exists [], r, c. cbn [app node_at String.concat].
    now rewrite (in_lookup_entry r (File c) es N He).
  - apply in_flat_map in H. destruct H as [[n child] [He H]].
    cbn [fst snd] in H. apply in_map_iff in H. destruct H as [r' [<- Hr]].
    rewrite Forall_forall in IH, Wc.
    destruct (IH (n, child) He r' (Wc (n, child) He) Hr)
      as [names [f [c [Nf [Hq ->]]]]].
    exists (n :: names), f, c. cbn [app node_at].
    rewrite (in_lookup_entry n child es N He).
    split; [exact Nf|]. split; [exact Hq|].
    cbn [String.concat]. destruct (names ++ [f]) eqn:E; [|reflexivity].
    now destruct names.
Qed.

(** The collected paths are the paths of the qualifying files below the
    root. *)
Lemma collected_path_origin (fs : filesystem) (root_dir p : string) :
  wf fs = true -> In p (collected_paths fs root_dir) ->
  exists l0 names f c,
    resolve fs root_dir = Some l0
    /\ node_at fs (l0 ++ names ++ [f]) = Some (File c)
    /\ qualifies f = true
    /\ p = (dir_prefix root_dir ++ String.concat "/" (names ++ [f]))%string.
Proof.
  intros W Hp. unfold collected_paths in Hp. rewrite sorted_in in Hp.
  unfold wf in W. apply andb_true_iff in W. destruct W as [_ W].
  unfold os_walk in Hp.
  destruct (resolve fs root_dir) as [l0|] eqn:R0; [|contradiction].
  destruct (node_at fs l0) as [nd|] eqn:N0; [|contradiction].
  assert (Wn : wf_node nd = true) by now apply (wf_node_at l0 fs).
  rewrite (collect_walk_node nd root_dir Wn) in Hp.
  apply in_map_iff in Hp. destruct Hp as [r [<- Hr]].
  destruct (rels_sound nd r Wn Hr) as [names [f [c [Nf [Hq ->]]]]].
  exists l0, names, f, c. repeat split; trivial.
  now rewrite node_at_app, N0.
Qed.

Lemma agree_collected_incl (fs fs' : filesystem) (root_dir p : string) :
  wf fs = true -> wf fs' = true -> agree fs fs' ->
  In p (collected_paths fs root_dir) -> In p (collected_paths fs' root_dir).
Proof.
  intros W W' A Hp.
  destruct (collected_path_origin fs root_dir p W Hp)
    as [l0 [names [f [c [R0 [N [Hq ->]]]]]]].
  assert (N' : node_at fs' (l0 ++ names ++ [f]) = Some (File c))
    by now apply (A (l0 ++ names ++ [f])).
  rewrite node_at_app in N'.
  destruct (node_at fs' l0) as [nd'|] eqn:N0; [|discriminate].
  apply file_below_the_root_is_collected with l0 nd' c; trivial.
  - now rewrite (agree_resolve fs fs' root_dir A).
  - apply (wf_node_at l0 fs'); [|exact N0]. now apply wf_node_of_wf.
Qed.

Lemma agree_collected_paths (fs fs' : filesystem) (root_dir : string) :
  wf fs = true -> wf fs' = true -> agree fs fs' ->
  collected_paths fs' root_dir = collected_paths fs root_dir.
Proof.
  intros W W' A. apply strongly_sorted_unique.
  - apply sorted_strongly.
  - apply sorted_strongly.
  - apply NoDup_Permutation; try now apply collected_paths_nodup.
    intros p. split.
    + apply agree_collected_incl; trivial. now apply agree_sym.
    + now apply agree_collected_incl.
Qed.

Lemma agree_file_text (fs fs' : filesystem) (p : string) :
  agree fs fs' -> file_text fs' p = file_text fs p.
Proof.
  intros A. unfold file_text. rewrite (agree_resolve fs fs' p A).
  destruct (resolve fs p) as [l|]; [|reflexivity].
  destruct (A l) as [K F]. unfold kind_at in K.
  destruct (node_at fs l) as [[c|es]|] eqn:N.
  - now rewrite (proj1 (F c) eq_refl).
  - now destruct (node_at fs' l) as [[c'|es']|].
  - now destruct (node_at fs' l) as [[c'|es']|].
Qed.


(** * The claims *)




(** C2, as the program does it. For a file that the walk of the root
    directory meets, the full path is among the collected paths exactly
    when its name ends with one of ".ts", ".tsx", ".js", ".jsx", ".css",
    ".md" and ".json", as a suffix compared character by character. When
    the run returns, the document holds the blocks of the collected paths,
    and the file has been opened for its block exactly when its name
    qualifies. *)
Theorem path_is_collected_iff_the_name_qualifies
        (peek : string -> string + string) (fs : filesystem)
        (root_dir output_file folder : string) (dirs files : list string)
        (file : string) :
  let r := collect_source_files peek fs (Some root_dir) (Some output_file) in
  wf fs = true ->
  In (folder, dirs, files) (os_walk fs root_dir) ->
  In file files ->
  (In (join folder file) (collected_paths fs root_dir)
   <-> qualifies file = true)
  /\ (qualifies file = true
      <-> exists ext pre,
            In ext [".ts"; ".tsx"; ".js"; ".jsx"; ".css"; ".md"; ".json"]
            /\ file = (pre ++ ext)%string)
  /\ (forall v, result r = Returned v ->
        (In (join folder file, R) (trace r) <-> qualifies file = true)
        /\ exists fs_open out,
             open_for_writing fs output_file = Some (fs_open, out)
             /\ file_text (fs_after r) output_file
                = Some (blocks (collected_paths fs root_dir)
                               (reads peek fs_open out
                                      (collected_paths fs root_dir) ""))).
Proof.
  intros r W Hi Hf.
  assert (C : In (join folder file) (collected_paths fs root_dir)
              <-> qualifies file = true).
  { unfold collected_paths. rewrite sorted_in, in_collect. split.
    - intros [folder' [dirs' [files' [file' [Hi' [Hf' [Hq E]]]]]]].
      pose proof (os_walk_names fs root_dir folder dirs files W Hi) as V.
      pose proof (os_walk_names fs root_dir folder' dirs' files' W Hi') as V'.
      rewrite Forall_forall in V, V'.
      apply (f_equal basename) in E.
      rewrite !basename_join in E by auto. now subst.
    - intros Hq. now exists folder, dirs, files, file. }
  split; [exact C|]. split; [apply qualifies_iff|].
  intros v Hv.
  destruct (returned_inv peek fs root_dir output_file v Hv)
    as [_ [_ [fs_open [out [O _]]]]].
  destruct (document_spec peek fs root_dir output_file fs_open out v Hv O)
    as [D T].
  split.
  - rewrite <- C. unfold r. rewrite T. split.
    + intros [E|Hm]; [discriminate|].
      apply in_map_iff in Hm. destruct Hm as [q [E Hq]].
      injection E as ->. exact Hq.
    + intros Hp. right. apply in_map_iff. now exists (join folder file).
  - now exists fs_open, out.
Qed.

Lemma path_is_collected_iff_the_name_qualifies_witness :
  let r := collect_source_files unflushed sample_tree
             (Some "./src") (Some "merged_source_dump.txt") in
  (wf sample_tree = true
   /\ In ("./src", ["lib"], ["b.md"; "c.png"; "a.ts"])
         (os_walk sample_tree "./src")
   /\ In "c.png" ["b.md"; "c.png"; "a.ts"]
   /\ In "a.ts" ["b.md"; "c.png"; "a.ts"]
   /\ result r = Returned "merged_source_dump.txt")
  /\ (In "./src/a.ts" (collected_paths sample_tree "./src")
      /\ In ("./src/a.ts", R) (trace r)
      /\ qualifies "a.ts" = true)
  /\ (~ In "./src/c.png" (collected_paths sample_tree "./src")
      /\ ~ In ("./src/c.png", R) (trace r)
      /\ qualifies "c.png" = false).
Proof.
  cbv zeta.
  assert (Hi : In ("./src", ["lib"], ["b.md"; "c.png"; "a.ts"])
                  (os_walk sample_tree "./src")) by (now left).
  assert (Ha : In "a.ts" ["b.md"; "c.png"; "a.ts"]) by (simpl; tauto).
  assert (Hc : In "c.png" ["b.md"; "c.png"; "a.ts"]) by (simpl; tauto).
  split; [repeat split; assumption|]. split.
  - destruct (path_is_collected_iff_the_name_qualifies
                unflushed sample_tree "./src" "merged_source_dump.txt"
                "./src" ["lib"] ["b.md"; "c.png"; "a.ts"] "a.ts"
                eq_refl Hi Ha) as [[_ H] [_ K]].
    destruct (K "merged_source_dump.txt" eq_refl) as [[_ T] _].
    split; [exact (H eq_refl)|]. split; [exact (T eq_refl) | reflexivity].
  - destruct (path_is_collected_iff_the_name_qualifies
                unflushed sample_tree "./src" "merged_source_dump.txt"
                "./src" ["lib"] ["b.md"; "c.png"; "a.ts"] "c.png"
                eq_refl Hi Hc) as [[H _] [_ K]].
    destruct (K "merged_source_dump.txt" eq_refl) as [[T _] _].
    split; [|split; [|reflexivity]].
    + intros Hn. apply H in Hn. discriminate.
    + intros Hn. apply T in Hn. discriminate.
Defined.

(** C2 as it is stated fails for a run that does not return. The walk
    meets "notes.md" and "zebra.md", their names qualify and their paths
    are collected, yet the run raises at the path before them, which
    cannot be encoded: they are never opened and the document holds no
    block for them. *)
Lemma collected_file_can_be_left_without_a_block :
  let r := collect_source_files unflushed legacy_tree
             (Some ".") (Some "out.txt") in
  wf legacy_tree = true
  /\ os_walk legacy_tree "."
     = [(".", [], ["zebra.md"; latin1_name; "broken.md"; "notes.md"])]
  /\ qualifies "notes.md" = true
  /\ In (join "." "notes.md") (collected_paths legacy_tree ".")
  /\ result r = Raised UnicodeEncodeError
  /\ trace r = [("out.txt", W); ("./broken.md", R)]
  /\ file_text (fs_after r) "out.txt"
     = Some (nl ++ nl ++ "===== FILE: ./broken.md =====" ++ nl ++ nl
             ++ "[ERROR READING FILE: denied]")%string
  /\ contains (nl ++ nl ++ "===== FILE: ./broken.md =====" ++ nl ++ nl
               ++ "[ERROR READING FILE: denied]")
              "./notes.md" = false.
Proof.
  cbv zeta. repeat split; try reflexivity. vm_compute. tauto.
Qed.

(** C3. In a file system whose directories hold valid, pairwise different
    names, the paths of the blocks are in strict ascending order, each
    before all that follow it in the order of the code points; the sorted
    list is the same for all enumerations of the same walk, whatever the
    order of the directories and of the names in them; and the document
    holds the blocks of the first paths of that list, in that order, with
    at most the delimiter of the next path after them: the blocks of all
    the paths when the run returns. *)
Theorem blocks_are_in_strict_ascending_order_of_paths
        (peek : string -> string + string) (fs : filesystem)
        (root_dir output_file : string) :
  let r := collect_source_files peek fs (Some root_dir) (Some output_file) in
  let paths := collected_paths fs root_dir in
  wf fs = true ->
  StronglySorted (fun a b => String.ltb a b = true) paths
  /\ (forall w w', walk_equiv w w' -> sorted (collect w) = sorted (collect w'))
  /\ (forall fs_open out,
         has_char NUL root_dir = false ->
         open_for_writing fs output_file = Some (fs_open, out) ->
         let rs := reads peek fs_open out paths "" in
         exists k tail,
           k <= List.length paths
           /\ file_text (fs_after r) output_file
              = Some (blocks (firstn k paths) (firstn k rs) ++ tail)%string
           /\ (tail = ""
               \/ exists p, nth_error paths k = Some p
                            /\ tail = delimiter p)
           /\ (forall v, result r = Returned v ->
                         k = List.length paths /\ tail = "")).
Proof.
  intros r paths W. split; [|split].
  - apply (strongly_sorted_strict (collected_paths fs root_dir)).
    + now apply collected_paths_nodup.
    + apply sorted_strongly.
  - intros w w' H. now apply sorted_of_permutation, collect_permutation.
  - intros fs_open out N O rs.
    destruct (document_any peek fs root_dir output_file fs_open out N O)
      as [_ D].
    destruct (written_blocks_prefix paths rs (length_reads _ _ _ _ _))
      as [k [tail [Hk [E [T Sm]]]]].
    exists k, tail. split; [exact Hk|]. split.
    { unfold r. rewrite D. fold paths. fold rs. now rewrite E. }
    split; [exact T|]. intros v Hv. apply Sm.
    destruct (returned_inv peek fs root_dir output_file v Hv)
      as [_ [_ [f [o [O' S']]]]].
    rewrite O in O'. injection O' as <- <-. exact S'.
Qed.

Lemma blocks_are_in_strict_ascending_order_of_paths_witness :
  wf sample_tree = true
  /\ StronglySorted (fun a b => String.ltb a b = true)
                    (collected_paths sample_tree "./src")
  /\ collected_paths sample_tree "./src"
     = ["./src/a.ts"; "./src/b.md"; "./src/lib/z.json"]
  /\ sorted (collect [("./src/lib", [], ["z.json"]);
                      ("./src", ["lib"], ["a.ts"; "c.png"; "b.md"])])
     = sorted (collect (os_walk sample_tree "./src")).
Proof.
  split; [reflexivity|].
  destruct (blocks_are_in_strict_ascending_order_of_paths
              unflushed sample_tree "./src" "merged_source_dump.txt" eq_refl)
    as [S [P _]].
  split; [exact S|]. split; [reflexivity|].
  apply P.
  exists [("./src/lib", [], ["z.json"]);
          ("./src", ["lib"], ["b.md"; "c.png"; "a.ts"])].
  split.
  - constructor; [|constructor; [|constructor]].
    + split; [reflexivity|]. split; apply Permutation_refl.
    + split; [reflexivity|]. split; [apply Permutation_refl|].
      cbn [snd].
      apply Permutation_trans with ["c.png"; "a.ts"; "b.md"].
      * apply perm_swap.
      * apply Permutation_sym.
        apply (Permutation_cons_append ["c.png"; "a.ts"] "b.md").
  - apply perm_swap.
Defined.

(** C4, as the program does it. When the loop reaches a collected path
    that can be encoded and its [try] block fails, whatever the reason,
    with a message that can be encoded, the failure does not leave the
    loop: the block of the path is there, it holds
    "[ERROR READING FILE: <message>]" in place of the contents, and the
    paths after it are processed in their order. A run that has opened the
    document returns or raises [UnicodeEncodeError]: it returns when the
    blocks of the paths that follow can be written, and otherwise ends at
    the first of them that cannot. *)
Theorem read_failure_becomes_a_placeholder
        (peek : string -> string + string) (fs : filesystem)
        (root_dir output_file : string) (fs_open : filesystem) (out : loc)
        (before : list string) (p : string) (after : list string)
        (msg : string) :
  let r := collect_source_files peek fs (Some root_dir) (Some output_file) in
  let done := blocks before (reads peek fs_open out before "") in
  let here := ("[ERROR READING FILE: " ++ msg ++ "]")%string in
  let rest := reads peek fs_open out after
                    (done ++ delimiter p ++ here) in
  has_char NUL root_dir = false ->
  open_for_writing fs output_file = Some (fs_open, out) ->
  collected_paths fs root_dir = before ++ p :: after ->
  smooth before (reads peek fs_open out before "") = true ->
  encodable p = true ->
  attempt peek fs_open out (done ++ delimiter p) p = inr msg ->
  encodable msg = true ->
  startswith here "[ERROR READING FILE:" = true
  /\ file_text (fs_after r) output_file
     = Some (done
             ++ (nl ++ nl ++ "===== FILE: " ++ p ++ " =====" ++ nl ++ nl)
             ++ here
             ++ written_blocks after rest)%string
  /\ (smooth after rest = true ->
      result r = Returned output_file
      /\ written_blocks after rest = blocks after rest)
  /\ (result r = Returned output_file
      \/ result r = Raised UnicodeEncodeError).
Proof.
  intros r done here rest N O P Sb Ep E Em.
  assert (B : block_ok p (inr msg) = true).
  { unfold block_ok. now rewrite encodable_delimiter, encodable_placeholder,
      Ep, Em. }
  pose proof (document_around peek fs root_dir output_file fs_open out
                              before p after N O P Sb) as H.
  cbv zeta in H. fold done in H. rewrite E in H.
  destruct (H B) as [D [Sa Rr]]. split; [reflexivity|].
  split; [|split; [exact Sa | exact Rr]].
  unfold r. rewrite D.
  unfold rest, block, body, here, delimiter, placeholder.
  now rewrite !StrFacts.append_assoc.
Qed.

Lemma read_failure_becomes_a_placeholder_witness :
  let fs_open := opened_tree draft_tree "merged_source_dump.txt" in
  let out := opened_place draft_tree "merged_source_dump.txt" in
  let r := collect_source_files unflushed draft_tree
             (Some "./src") (Some "merged_source_dump.txt") in
  let msg := "[Errno 13] Permission denied: './src/locked.json'" in
  let here := ("[ERROR READING FILE: " ++ msg ++ "]")%string in
  let rest :=
    reads unflushed fs_open out ["./src/main.ts"; "./src/style.css"]
          (blocks [] [] ++ delimiter "./src/locked.json" ++ here) in
  (has_char NUL "./src" = false
   /\ open_for_writing draft_tree "merged_source_dump.txt"
      = Some (fs_open, out)
   /\ collected_paths draft_tree "./src"
      = [] ++ "./src/locked.json" :: ["./src/main.ts"; "./src/style.css"]
   /\ encodable "./src/locked.json" = true
   /\ read_text draft_tree "./src/locked.json" = inr msg
   /\ attempt unflushed fs_open out
              (blocks [] [] ++ delimiter "./src/locked.json")
              "./src/locked.json"
      = inr msg
   /\ encodable msg = true
   /\ smooth ["./src/main.ts"; "./src/style.css"] rest = true)
  /\ result r = Returned "merged_source_dump.txt"
  /\ file_text (fs_after r) "merged_source_dump.txt"
     = Some ((nl ++ nl ++ "===== FILE: ./src/locked.json ====="
              ++ nl ++ nl)
             ++ here
             ++ blocks ["./src/main.ts"; "./src/style.css"] rest)%string.
Proof.
  cbv zeta. split; [repeat split|].
  pose proof (read_failure_becomes_a_placeholder
                unflushed draft_tree "./src" "merged_source_dump.txt"
                (opened_tree draft_tree "merged_source_dump.txt")
                (opened_place draft_tree "merged_source_dump.txt")
                [] "./src/locked.json" ["./src/main.ts"; "./src/style.css"]
                "[Errno 13] Permission denied: './src/locked.json'"
                eq_refl eq_refl eq_refl eq_refl eq_refl eq_refl eq_refl)
    as [_ [H1 [H2 _]]].
  destruct (H2 eq_refl) as [H3 H4].
  split; [exact H3|]. cbv zeta in H1. rewrite H4 in H1. exact H1.
Defined.

(** C4 as it is stated fails for the files that follow the one that cannot
    be read. The read of "./broken.md" fails and its placeholder is
    written; the next path cannot be encoded, the write of its delimiter
    raises [UnicodeEncodeError], and the two files after it are not
    processed: the run does not return. *)
Lemma files_after_a_failed_read_can_be_left_out :
  let r := collect_source_files unflushed legacy_tree
             (Some ".") (Some "out.txt") in
  collected_paths legacy_tree "."
  = ["./broken.md"; "./" ++ latin1_name; "./notes.md"; "./zebra.md"]%string
  /\ read_text legacy_tree "./broken.md" = inr "denied"
  /\ read_text legacy_tree "./notes.md" = inl "n"
  /\ read_text legacy_tree "./zebra.md" = inl "z"
  /\ encodable ("./" ++ latin1_name) = false
  /\ result r = Raised UnicodeEncodeError
  /\ trace r = [("out.txt", W); ("./broken.md", R)]
  /\ file_text (fs_after r) "out.txt"
     = Some (nl ++ nl ++ "===== FILE: ./broken.md =====" ++ nl ++ nl
             ++ "[ERROR READING FILE: denied]")%string.
Proof. cbv zeta. repeat split; reflexivity. Qed.

(** C5, as the program does it. When the loop reaches a collected path
    that can be encoded and names a file of text [C], other than the
    document itself, the document holds between the delimiter of the path
    and what the loop writes next (or its end) the text [C] with every line
    ending, "\r\n" or "\r", turned into "\n"; that is [C] itself when [C]
    has no carriage return. What follows is the blocks of the remaining
    paths when they can be written, and the run then returns. *)
Theorem file_text_is_copied_with_its_newlines_translated
        (peek : string -> string + string) (fs : filesystem)
        (root_dir output_file : string) (fs_open : filesystem) (out : loc)
        (before : list string) (p : string) (after : list string)
        (C : string) :
  let r := collect_source_files peek fs (Some root_dir) (Some output_file) in
  let done := blocks before (reads peek fs_open out before "") in
  let here := universal_newlines C in
  let rest := reads peek fs_open out after
                    (done ++ delimiter p ++ here) in
  has_char NUL root_dir = false ->
  open_for_writing fs output_file = Some (fs_open, out) ->
  collected_paths fs root_dir = before ++ p :: after ->
  smooth before (reads peek fs_open out before "") = true ->
  encodable p = true ->
  file_text fs p = Some C ->
  encodable C = true ->
  resolve fs p <> Some out ->
  file_text (fs_after r) output_file
  = Some (done
          ++ (nl ++ nl ++ "===== FILE: " ++ p ++ " =====" ++ nl ++ nl)
          ++ here
          ++ written_blocks after rest)%string
  /\ (smooth after rest = true ->
      result r = Returned output_file
      /\ written_blocks after rest = blocks after rest)
  /\ (has_char CR C = false -> here = C).
Proof.
  intros r done here rest N O P Sb Ep F Ec D.
  assert (X : attempt peek fs_open out (done ++ delimiter p) p = inl here).
  { unfold attempt.
    rewrite (read_other_file peek fs output_file fs_open out
                             (done ++ delimiter p) p C O F D).
    apply try_write_text. now apply encodable_universal_newlines. }
  assert (B : block_ok p (inl here) = true).
  { unfold block_ok. now rewrite encodable_delimiter, Ep. }
  pose proof (document_around peek fs root_dir output_file fs_open out
                              before p after N O P Sb) as H.
  cbv zeta in H. fold done in H. rewrite X in H.
  destruct (H B) as [Dc [Sa _]].
  split; [|split; [exact Sa | apply StrFacts.universal_newlines_plain]].
  unfold r. rewrite Dc.
  unfold rest, block, body, delimiter.
  now rewrite !StrFacts.append_assoc.
Qed.

Lemma file_text_is_copied_with_its_newlines_translated_witness :
  let fs_open := opened_tree draft_tree "merged_source_dump.txt" in
  let out := opened_place draft_tree "merged_source_dump.txt" in
  let r := collect_source_files unflushed draft_tree
             (Some "./src") (Some "merged_source_dump.txt") in
  let C := ("x" ++ String CR (String LF "y"))%string in
  let done :=
    blocks ["./src/locked.json"]
           (reads unflushed fs_open out ["./src/locked.json"] "") in
  (has_char NUL "./src" = false
   /\ open_for_writing draft_tree "merged_source_dump.txt"
      = Some (fs_open, out)
   /\ collected_paths draft_tree "./src"
      = ["./src/locked.json"] ++ "./src/main.ts" :: ["./src/style.css"]
   /\ smooth ["./src/locked.json"]
             (reads unflushed fs_open out ["./src/locked.json"] "") = true
   /\ encodable "./src/main.ts" = true
   /\ file_text draft_tree "./src/main.ts" = Some C
   /\ encodable C = true
   /\ resolve draft_tree "./src/main.ts" <> Some out)
  /\ universal_newlines C = ("x" ++ nl ++ "y")%string
  /\ file_text (fs_after r) "merged_source_dump.txt"
     = Some (done
             ++ (nl ++ nl ++ "===== FILE: ./src/main.ts =====" ++ nl ++ nl)
             ++ ("x" ++ nl ++ "y")
             ++ (nl ++ nl ++ "===== FILE: ./src/style.css =====" ++ nl ++ nl)
             ++ "s")%string.
Proof.
  cbv zeta.
  assert (D : resolve draft_tree "./src/main.ts"
              <> Some (opened_place draft_tree "merged_source_dump.txt"))
    by (vm_compute; discriminate).
  split; [repeat split; exact D|]. split; [reflexivity|].
  pose proof (file_text_is_copied_with_its_newlines_translated
                unflushed draft_tree "./src" "merged_source_dump.txt"
                (opened_tree draft_tree "merged_source_dump.txt")
                (opened_place draft_tree "merged_source_dump.txt")
                ["./src/locked.json"] "./src/main.ts" ["./src/style.css"]
                ("x" ++ String CR (String LF "y"))
                eq_refl eq_refl eq_refl eq_refl eq_refl eq_refl eq_refl D)
    as [H _].
  cbv zeta in H. rewrite H. reflexivity.
Defined.

(** C5 as it is stated fails twice. A file with the text "x\r\ny" is
    collected and read, and the document holds "x\ny": the text of the file
    occurs nowhere in it. And a document that is itself one of the collected
    files is emptied before it is read: its own block holds nothing of the
    text it had. *)
Lemma file_text_is_not_always_copied_as_it_is :
  let crlf := ("x" ++ String CR (String LF "y"))%string in
  let fs1 := Dir [("src", Dir [("a.ts", File (Text crlf))])] in
  let r1 := collect_source_files unflushed fs1
              (Some "./src") (Some "merged_source_dump.txt") in
  let fs2 := Dir [("notes.md", File (Text "x"))] in
  let r2 := collect_source_files unflushed fs2 (Some ".") (Some "notes.md") in
  (collected_paths fs1 "./src" = ["./src/a.ts"]
   /\ file_text fs1 "./src/a.ts" = Some crlf
   /\ read_text fs1 "./src/a.ts" = inl ("x" ++ nl ++ "y")%string
   /\ file_text (fs_after r1) "merged_source_dump.txt"
      = Some (nl ++ nl ++ "===== FILE: ./src/a.ts =====" ++ nl ++ nl
              ++ "x" ++ nl ++ "y")%string
   /\ ~ exists pre post,
          file_text (fs_after r1) "merged_source_dump.txt"
          = Some (pre ++ crlf ++ post)%string)
  /\ (collected_paths fs2 "." = ["./notes.md"]
      /\ file_text fs2 "./notes.md" = Some "x"
      /\ read_text fs2 "./notes.md" = inl "x"
      /\ file_text (fs_after r2) "notes.md"
         = Some (nl ++ nl ++ "===== FILE: ./notes.md =====" ++ nl ++ nl)%string).
Proof.
  cbv zeta. split; [|repeat split].
  repeat split. intros [pre [post H]].
  match type of H with
  | ?a = _ => let v := eval vm_compute in a in change a with v in H
  end.
  injection H as H.
  pose proof (StrFacts.contains_occurrence
                pre ("x" ++ String CR (String LF "y")) post) as K.
  match type of H with
  | ?doc = _ =>
      assert (H' : doc = (pre ++ ("x" ++ String CR (String LF "y")) ++ post)%string)
        by exact H
  end.
  rewrite <- H' in K. vm_compute in K. discriminate.
Qed.







(** C8. A call that returns, returns the output path it was given (the
    default one when it was given none). Running the module is one call with
    the defaults, the root "./src" and the output "merged_source_dump.txt":
    it has the effects of that call, and when the call returns it prints
    "Merged document saved as:" followed by the output path. *)
Theorem returns_and_prints_the_output_path
        (peek : string -> string + string) (fs : filesystem) :
  (forall root_dir output_file v,
      result (collect_source_files peek fs root_dir output_file) = Returned v ->
      v = default "merged_source_dump.txt" output_file)
  /\ (forall root_dir output_file v,
         result (collect_source_files peek fs (Some root_dir)
                                      (Some output_file)) = Returned v ->
         v = output_file)
  /\ let p := exec_module peek "__main__" fs in
     let r := collect_source_files peek fs (Some "./src")
                                   (Some "merged_source_dump.txt") in
     fs_end p = fs_after r
     /\ opens p = trace r
     /\ filter (fun e => is_write (snd e)) (opens p)
        = [("merged_source_dump.txt", W)]
     /\ (forall v, result r = Returned v ->
                   status p = Returned tt
                   /\ stdout p
                      = ("Merged document saved as: merged_source_dump.txt"
                         ++ nl)%string)
     /\ (forall e, result r = Raised e ->
                   status p = Raised e /\ stdout p = "").
Proof.
  assert (A : forall root_dir output_file v,
             result (collect_source_files peek fs root_dir output_file)
             = Returned v ->
             v = default "merged_source_dump.txt" output_file).
  { intros root_dir output_file v H.
    change (collect_source_files peek fs root_dir output_file)
      with (collect_source_files
              peek fs (Some (default "./src" root_dir))
              (Some (default "merged_source_dump.txt" output_file))) in H.
    now destruct (returned_inv _ _ _ _ _ H) as [-> _]. }
  split; [exact A|]. split; [intros root_dir output_file v; apply A|].
  cbv zeta. unfold exec_module.
  change (collect_source_files peek fs None None)
    with (collect_source_files peek fs (Some "./src")
                               (Some "merged_source_dump.txt")).
  pose proof (trace_spec peek fs "./src" "merged_source_dump.txt" eq_refl)
    as T.
  pose proof (A (Some "./src") (Some "merged_source_dump.txt")) as B.
  destruct (result (collect_source_files peek fs (Some "./src")
                                         (Some "merged_source_dump.txt")))
    as [v|e]; cbn [fs_end opens status stdout].
  - rewrite (B v eq_refl). cbn [default].
    split; [reflexivity|]. split; [reflexivity|]. split; [exact T|].
    split; [intros _ _; now split | discriminate].
  - split; [reflexivity|]. split; [reflexivity|]. split; [exact T|].
    split; [discriminate|]. intros e' He. injection He as <-. now split.
Qed.

Lemma returns_and_prints_the_output_path_witness :
  let p := exec_module unflushed "__main__" sample_tree in
  let r := collect_source_files unflushed sample_tree (Some "./src")
                                (Some "merged_source_dump.txt") in
  result r = Returned "merged_source_dump.txt"
  /\ status p = Returned tt
  /\ stdout p
     = ("Merged document saved as: merged_source_dump.txt" ++ nl)%string.
Proof.
  cbv zeta. split; [reflexivity|].
  exact (proj1 (proj2 (proj2 (proj2 (proj2 (proj2
           (returns_and_prints_the_output_path unflushed sample_tree))))))
           "merged_source_dump.txt" eq_refl).
Defined.

(** C9. The call at the end of the module stands under no test of
    [__name__]: whatever name the module is run under, "__main__" or the
    name it is imported by, the whole run takes place. It has the effects
    of a call with the defaults and opens the document once; when that
    call raises, so does the module, and nothing is printed; when it
    returns, every file that the walk of "./src" meets and whose name
    qualifies has been opened, the document was created or truncated and
    holds the blocks of the sorted paths, and the confirmation is
    printed. *)
Theorem importing_the_module_runs_it
        (peek : string -> string + string) (fs : filesystem)
        (dunder_name : string) :
  let p := exec_module peek dunder_name fs in
  let r := collect_source_files peek fs None None in
  let paths := collected_paths fs "./src" in
  p = exec_module peek "__main__" fs
  /\ fs_end p = fs_after r
  /\ opens p = trace r
  /\ filter (fun e => is_write (snd e)) (opens p)
     = [("merged_source_dump.txt", W)]
  /\ (forall e, result r = Raised e -> status p = Raised e /\ stdout p = "")
  /\ (forall v, result r = Returned v ->
        status p = Returned tt
        /\ stdout p
           = ("Merged document saved as: merged_source_dump.txt" ++ nl)%string
        /\ (forall folder dirs files file,
               In (folder, dirs, files) (os_walk fs "./src") ->
               In file files -> qualifies file = true ->
               In (join folder file, R) (opens p))
        /\ exists fs_open out,
             open_for_writing fs "merged_source_dump.txt"
             = Some (fs_open, out)
             /\ file_text fs_open "merged_source_dump.txt" = Some ""
             /\ file_text (fs_end p) "merged_source_dump.txt"
                = Some (blocks paths (reads peek fs_open out paths ""))).
Proof.
  cbv zeta. split; [reflexivity|].
  unfold exec_module.
  change (collect_source_files peek fs None None)
    with (collect_source_files peek fs (Some "./src")
                               (Some "merged_source_dump.txt")).
  pose proof (trace_spec peek fs "./src" "merged_source_dump.txt" eq_refl)
    as T.
  destruct (result (collect_source_files peek fs (Some "./src")
                                         (Some "merged_source_dump.txt")))
    as [v|e] eqn:Hr; cbn [fs_end opens status stdout].
  - split; [reflexivity|]. split; [reflexivity|]. split; [exact T|].
    split; [discriminate|]. intros v' _.
    destruct (returned_inv peek fs "./src" "merged_source_dump.txt" v Hr)
      as [-> [N [fs_open [out [O _]]]]].
    destruct (document_spec peek fs "./src" "merged_source_dump.txt"
                            fs_open out _ Hr O) as [D Tr].
    destruct (document_any peek fs "./src" "merged_source_dump.txt"
                            fs_open out N O) as [E _].
    split; [reflexivity|]. split; [reflexivity|]. split.
    + intros folder dirs files file Hi Hf Hq. rewrite Tr. right.
      apply in_map_iff. exists (join folder file). split; [reflexivity|].
      unfold collected_paths. rewrite sorted_in, in_collect.
      now exists folder, dirs, files, file.
    + exists fs_open, out. split; [exact O|]. split; [exact E | exact D].
  - split; [reflexivity|]. split; [reflexivity|]. split; [exact T|].
    split; [|discriminate].
    intros e' He. injection He as <-. now split.
Qed.

Lemma importing_the_module_runs_it_witness :
  let p := exec_module unflushed "merged_source_dumper" sample_tree in
  result (collect_source_files unflushed sample_tree None None)
  = Returned "merged_source_dump.txt"
  /\ status p = Returned tt
  /\ stdout p
     = ("Merged document saved as: merged_source_dump.txt" ++ nl)%string
  /\ In (join "./src/lib" "z.json", R) (opens p)
  /\ is_file sample_tree "merged_source_dump.txt" = false
  /\ is_file (fs_end p) "merged_source_dump.txt" = true.
Proof.
  cbv zeta. split; [reflexivity|].
  destruct (proj2 (proj2 (proj2 (proj2 (proj2
              (importing_the_module_runs_it
                 unflushed sample_tree "merged_source_dumper")))))
              "merged_source_dump.txt" eq_refl)
    as [H1 [H2 [H3 _]]].
  split; [exact H1|]. split; [exact H2|]. split.
  - apply (H3 "./src/lib" [] ["z.json"] "z.json");
      [right; now left | now left | reflexivity].
  - split; reflexivity.
Defined.



(** * Further properties of the run *)

(** X1. In a well-formed file system every collected path ends with one of
    the extensions, and so does its last component, the name that was
    tested. *)
Theorem collected_paths_end_with_an_extension
        (fs : filesystem) (root_dir p : string) :
  wf fs = true ->
  In p (collected_paths fs root_dir) ->
  qualifies (basename p) = true
  /\ exists ext pre,
       In ext [".ts"; ".tsx"; ".js"; ".jsx"; ".css"; ".md"; ".json"]
       /\ p = (pre ++ ext)%string.
Proof.
  intros W Hp. split.
  - destruct (collected_path_resolves fs root_dir p W Hp)
      as [l [f [c [_ [_ [Hq [_ Hb]]]]]]].
    now rewrite Hb.
  - unfold collected_paths in Hp. rewrite sorted_in, in_collect in Hp.
    destruct Hp as [folder [dirs [files [f [Hi [Hf [Hq ->]]]]]]].
    pose proof (os_walk_names fs root_dir folder dirs files W Hi) as V.
    rewrite Forall_forall in V. rewrite (join_valid folder f (V f Hf)).
    apply qualifies_iff in Hq. destruct Hq as [ext [pre [He ->]]].
    exists ext, (dir_prefix folder ++ pre)%string. split; [exact He|].
    now rewrite StrFacts.append_assoc.
Qed.

Lemma collected_paths_end_with_an_extension_witness :
  (wf vendor_tree = true
   /\ In "./node_modules/.cache/state.json" (collected_paths vendor_tree "."))
  /\ qualifies (basename "./node_modules/.cache/state.json") = true
  /\ exists ext pre,
       In ext [".ts"; ".tsx"; ".js"; ".jsx"; ".css"; ".md"; ".json"]
       /\ "./node_modules/.cache/state.json" = (pre ++ ext)%string.
Proof.
  assert (H : In "./node_modules/.cache/state.json"
                 (collected_paths vendor_tree "."))
    by (vm_compute; tauto).
  split; [split; [reflexivity | exact H]|].
  exact (collected_paths_end_with_an_extension
           vendor_tree "." "./node_modules/.cache/state.json" eq_refl H).
Defined.

(** X2. A directory is never collected, whatever its name: the path of a
    sub-directory that the walk lists, joined as the paths of the files
    are, is not among the collected paths even when the name of the
    directory ends with one of the extensions. *)
Theorem directories_are_never_collected
        (fs : filesystem) (root_dir folder : string)
        (dirs files : list string) (d : string) :
  wf fs = true ->
  In (folder, dirs, files) (os_walk fs root_dir) ->
  In d dirs ->
  ~ In (join folder d) (collected_paths fs root_dir).
Proof.
  intros W Hi Hd Hc.
  destruct (os_walk_resolves fs root_dir folder dirs files W Hi)
    as [l [es [Rf [N [We [Ed _]]]]]].
  rewrite Ed in Hd. destruct (in_dirnames es d Hd) as [sub He].
  destruct (listed_entry_resolves fs folder l es d (Dir sub) Rf N We He)
    as [R1 R2].
  destruct (collected_path_resolves fs root_dir (join folder d) W Hc)
    as [l' [f [c [Rp [Nf _]]]]].
  rewrite R1 in Rp. injection Rp as E. rewrite <- E, R2 in Nf.
  discriminate.
Qed.

Lemma directories_are_never_collected_witness :
  (wf vendor_tree = true
   /\ In ("./node_modules", ["chart.js"; ".cache"], [])
         (os_walk vendor_tree ".")
   /\ In "chart.js" ["chart.js"; ".cache"]
   /\ qualifies "chart.js" = true)
  /\ ~ In (join "./node_modules" "chart.js") (collected_paths vendor_tree ".")
  /\ In "./node_modules/chart.js/index.js" (collected_paths vendor_tree ".").
Proof.
  assert (Hi : In ("./node_modules", ["chart.js"; ".cache"], [])
                  (os_walk vendor_tree ".")) by (vm_compute; tauto).
  assert (Hd : In "chart.js" ["chart.js"; ".cache"]) by (now left).
  split; [repeat split; trivial|]. split.
  - exact (directories_are_never_collected
             vendor_tree "." "./node_modules" ["chart.js"; ".cache"] []
             "chart.js" eq_refl Hi Hd).
  - vm_compute. tauto.
Defined.

(** X3. In a well-formed file system every collected path is the root
    directory as it was given, a slash unless the root ends with one, and a
    path relative to the root: it starts with the root, and what follows is
    not empty and starts with no slash. *)
Theorem collected_paths_start_with_the_root
        (fs : filesystem) (root_dir p : string) :
  wf fs = true ->
  In p (collected_paths fs root_dir) ->
  exists rel,
    p = (dir_prefix root_dir ++ rel)%string
    /\ rel <> "" /\ startswith rel "/" = false
    /\ startswith p root_dir = true.
Proof.
  intros W Hp. unfold collected_paths in Hp. rewrite sorted_in in Hp.
  destruct (os_walk_cases fs root_dir W) as [E|[nd [Wn E]]];
    rewrite E in Hp; [contradiction|].
  rewrite (collect_walk_node nd root_dir Wn) in Hp.
  apply in_map_iff in Hp. destruct Hp as [rel [<- Hr]].
  destruct (rels_relative nd rel Wn Hr) as [H1 H2].
  exists rel. repeat split; trivial.
  unfold dir_prefix.
  destruct (String.eqb root_dir "" || endswith root_dir "/").
  - apply StrFacts.startswith_append.
  - rewrite StrFacts.append_assoc. apply StrFacts.startswith_append.
Qed.

Lemma collected_paths_start_with_the_root_witness :
  (wf sample_tree = true
   /\ In "./src/lib/z.json" (collected_paths sample_tree "./src"))
  /\ exists rel,
       "./src/lib/z.json" = (dir_prefix "./src" ++ rel)%string
       /\ rel <> "" /\ startswith rel "/" = false
       /\ startswith "./src/lib/z.json" "./src" = true.
Proof.
  assert (H : In "./src/lib/z.json" (collected_paths sample_tree "./src"))
    by (vm_compute; tauto).
  split; [split; [reflexivity | exact H]|].
  exact (collected_paths_start_with_the_root
           sample_tree "./src" "./src/lib/z.json" eq_refl H).
Defined.

(** X5. In a well-formed file system, when the run returns and no
    collected path names the file in which the document is written, the
    document is made from the files as they were before the run, and from
    nothing else: it holds the blocks of the sorted paths with, for each,
    what a read of that path gave before the run. *)
Theorem document_is_made_from_the_files_before_the_run
        (peek : string -> string + string) (fs : filesystem)
        (root_dir output_file : string) (fs_open : filesystem) (out : loc)
        (v : string) :
  let r := collect_source_files peek fs (Some root_dir) (Some output_file) in
  let paths := collected_paths fs root_dir in
  wf fs = true ->
  result r = Returned v ->
  open_for_writing fs output_file = Some (fs_open, out) ->
  (forall p, In p paths -> resolve fs p <> Some out) ->
  file_text (fs_after r) output_file
  = Some (blocks paths (map (fun p => try_write (read_text fs p)) paths)).
Proof.
  intros r paths W Hr O Hd.
  destruct (returned_inv peek fs root_dir output_file v Hr)
    as [_ [N [f [o [O' Sm]]]]].
  rewrite O in O'. injection O' as <- <-.
  destruct (document_without_itself
              peek fs root_dir output_file fs_open out N O) as [E D].
  { intros p Hp.
    destruct (collected_path_resolves fs root_dir p W Hp)
      as [l [n [c [Rp [Nf _]]]]].
    exists (l ++ [n]), c. split; [exact Rp|]. split; [exact Nf|].
    intros K. apply (Hd p Hp). now rewrite Rp, K. }
  unfold r. rewrite D. fold paths. fold paths in E, Sm.
  rewrite E in Sm. now rewrite (written_blocks_smooth _ _ Sm).
Qed.

Lemma document_is_made_from_the_files_before_the_run_witness :
  let r := collect_source_files unflushed draft_tree
             (Some "./src") (Some "merged_source_dump.txt") in
  (wf draft_tree = true
   /\ result r = Returned "merged_source_dump.txt"
   /\ open_for_writing draft_tree "merged_source_dump.txt"
      = Some (opened_tree draft_tree "merged_source_dump.txt",
              ["merged_source_dump.txt"])
   /\ collected_paths draft_tree "./src"
      = ["./src/locked.json"; "./src/main.ts"; "./src/style.css"])
  /\ file_text (fs_after r) "merged_source_dump.txt"
     = Some (blocks (collected_paths draft_tree "./src")
                    (map (fun p => try_write (read_text draft_tree p))
                         (collected_paths draft_tree "./src"))).
Proof.
  cbv zeta. split; [repeat split|].
  apply (document_is_made_from_the_files_before_the_run
           unflushed draft_tree "./src" "merged_source_dump.txt"
           (opened_tree draft_tree "merged_source_dump.txt")
           ["merged_source_dump.txt"] "merged_source_dump.txt"
           eq_refl eq_refl eq_refl).
  intros p Hp.
  change (In p ["./src/locked.json"; "./src/main.ts"; "./src/style.css"])
    in Hp.
  destruct Hp as [<-|[<-|[<-|[]]]]; vm_compute; discriminate.
Defined.

(** X6. The run changes one file, the document. When the document cannot
    be opened the file system is left as it was. Otherwise every place
    other than that of the document keeps its kind, every other file keeps
    its contents, and a read of a path that names another file gives after
    the run what it gave before. *)
Theorem run_changes_the_document_only
        (peek : string -> string + string) (fs : filesystem)
        (root_dir output_file : string) :
  let r := collect_source_files peek fs (Some root_dir) (Some output_file) in
  (open_for_writing fs output_file = None -> fs_after r = fs)
  /\ forall fs_open out,
       open_for_writing fs output_file = Some (fs_open, out) ->
       (forall l, l <> out -> kind_at (fs_after r) l = kind_at fs l)
       /\ (forall l c, l <> out -> node_at fs l = Some (File c) ->
                       node_at (fs_after r) l = Some (File c))
       /\ (forall p l, resolve fs p = Some l -> l <> out ->
                       read_text (fs_after r) p = read_text fs p).
Proof.
  intros r. destruct (has_char NUL root_dir) eqn:Nr.
  { unfold r. rewrite (run_walk_raised peek fs root_dir output_file Nr).
    cbn [fs_after]. split; [reflexivity|]. intros fs_open out _.
    split; [|split]; trivial. }
  split.
  - intros O. unfold r.
    now rewrite (run_open_raised peek fs root_dir output_file Nr O).
  - intros fs_open out O.
    pose proof (after_opened peek fs root_dir output_file fs_open out Nr O)
      as C.
    fold r in C. split; [|split].
    + intros l D. now apply kind_at_set_other with (2 := D) (1 := C).
    + intros l c D N. now apply node_at_set_file with (1 := C).
    + intros p l Rp D. now apply read_text_elsewhere with (1 := C) (2 := Rp).
Qed.

Lemma run_changes_the_document_only_witness :
  let r := collect_source_files unflushed sample_tree
             (Some "./src") (Some "src/a.ts") in
  (open_for_writing sample_tree "src/a.ts"
   = Some (opened_tree sample_tree "src/a.ts", ["src"; "a.ts"])
   /\ resolve sample_tree "./src/b.md" = Some ["src"; "b.md"]
   /\ ["src"; "b.md"] <> ["src"; "a.ts"])
  /\ read_text (fs_after r) "./src/b.md" = inl "y"
  /\ read_text sample_tree "./src/a.ts" = inl "x"
  /\ read_text (fs_after r) "./src/a.ts" <> inl "x".
Proof.
  cbv zeta.
  assert (D : ["src"; "b.md"] <> ["src"; "a.ts"]) by discriminate.
  split; [repeat split; exact D|].
  destruct (proj2 (run_changes_the_document_only
                     unflushed sample_tree "./src" "src/a.ts")
                  (opened_tree sample_tree "src/a.ts") ["src"; "a.ts"]
                  eq_refl) as [_ [_ H]].
  split; [|split; [reflexivity | vm_compute; discriminate]].
  rewrite (H "./src/b.md" ["src"; "b.md"] eq_refl D). reflexivity.
Defined.



(** X8. After a run that returns, the document is empty exactly when no
    path was collected: a single collected path already gives a document
    that starts with the blank line of its delimiter. *)
Theorem document_is_empty_iff_nothing_is_collected
        (peek : string -> string + string) (fs : filesystem)
        (root_dir output_file v : string) :
  let r := collect_source_files peek fs (Some root_dir) (Some output_file) in
  result r = Returned v ->
  (file_text (fs_after r) output_file = Some ""
   <-> collected_paths fs root_dir = [])
  /\ (collected_paths fs root_dir <> [] ->
      exists rest,
        file_text (fs_after r) output_file = Some (String LF rest)).
Proof.
  intros r Hr.
  destruct (returned_inv peek fs root_dir output_file v Hr)
    as [_ [_ [fs_open [out [O _]]]]].
  destruct (document_spec peek fs root_dir output_file fs_open out v Hr O)
    as [D _].
  fold r in D. rewrite D.
  destruct (collected_paths fs root_dir) as [|p paths]; cbn [reads blocks].
  - split; [split; reflexivity|]. intros H. now contradiction H.
  - split.
    + split; intros H; discriminate.
    + intros _. unfold delimiter, nl. cbn [append]. eauto.
Qed.

Lemma document_is_empty_iff_nothing_is_collected_witness :
  let r := collect_source_files unflushed sample_tree
             (Some "./src/lib") (Some "merged_source_dump.txt") in
  (result r = Returned "merged_source_dump.txt"
   /\ collected_paths sample_tree "./src/lib" <> [])
  /\ exists rest,
       file_text (fs_after r) "merged_source_dump.txt"
       = Some (String LF rest).
Proof.
  cbv zeta.
  assert (N : collected_paths sample_tree "./src/lib" <> [])
    by (vm_compute; discriminate).
  split; [split; [reflexivity | exact N]|].
  exact (proj2 (document_is_empty_iff_nothing_is_collected
                  unflushed sample_tree "./src/lib" "merged_source_dump.txt"
                  "merged_source_dump.txt" eq_refl) N).
Defined.

(** X9. The order in which the file system enumerates the entries of its
    directories does not matter. Two well-formed file systems that hold the
    same directories and the same files with the same contents, in any
    order, give the same sorted paths; and when the document opens in both,
    and names no file before the run or has a name that does not end with
    one of the extensions, they give the same document. *)
Theorem enumeration_order_does_not_matter
        (peek : string -> string + string) (fs fs' : filesystem)
        (root_dir output_file : string) :
  let r := collect_source_files peek fs (Some root_dir) (Some output_file) in
  let r' := collect_source_files peek fs' (Some root_dir) (Some output_file) in
  wf fs = true -> wf fs' = true -> same_tree fs fs' = true ->
  collected_paths fs' root_dir = collected_paths fs root_dir
  /\ (open_for_writing fs output_file <> None ->
      open_for_writing fs' output_file <> None ->
      is_file fs output_file = false
      \/ qualifies (basename output_file) = false ->
      file_text (fs_after r') output_file = file_text (fs_after r) output_file).
Proof.
  intros r r' W W' S.
  assert (A : agree fs fs').
  { apply same_tree_agree; [|exact S].
    unfold wf in W. apply andb_true_iff in W. tauto. }
  pose proof (agree_collected_paths fs fs' root_dir W W' A) as P.
  split; [exact P|]. intros O O' Hc.
  destruct (open_for_writing fs output_file) as [[fs_open out]|] eqn:E;
    [|now contradiction O].
  destruct (open_for_writing fs' output_file) as [[fs_open' out']|] eqn:E';
    [|now contradiction O'].
  assert (L : locate_for_writing fs output_file = Some out)
    by now destruct (open_for_writing_inv _ _ _ _ E).
  assert (L' : locate_for_writing fs' output_file = Some out')
    by now destruct (open_for_writing_inv _ _ _ _ E').
  destruct (has_char NUL root_dir) eqn:Nr.
  { unfold r, r'.
    rewrite (run_walk_raised peek fs root_dir output_file Nr).
    rewrite (run_walk_raised peek fs' root_dir output_file Nr).
    cbn [fs_after]. now apply agree_file_text. }
  destruct (document_without_itself
              peek fs root_dir output_file fs_open out Nr E) as [_ D].
  { intros p Hp.
    now apply collected_path_is_not_the_document
      with root_dir output_file. }
  assert (Hc' : is_file fs' output_file = false
                \/ qualifies (basename output_file) = false)
    by (now rewrite (agree_is_file fs fs' output_file A)).
  destruct (document_without_itself
              peek fs' root_dir output_file fs_open' out' Nr E') as [_ D'].
  { intros p Hp.
    now apply collected_path_is_not_the_document
      with root_dir output_file. }
  unfold r, r'. rewrite D, D', P. do 2 f_equal.
  apply map_ext. intros p. now rewrite (agree_read_text fs fs' p A).
Qed.

Lemma enumeration_order_does_not_matter_witness :
  let r := collect_source_files unflushed sample_tree
             (Some "./src") (Some "merged_source_dump.txt") in
  let r' := collect_source_files unflushed sample_tree_reordered
              (Some "./src") (Some "merged_source_dump.txt") in
  (wf sample_tree = true /\ wf sample_tree_reordered = true
   /\ same_tree sample_tree sample_tree_reordered = true
   /\ os_walk sample_tree_reordered "./src" <> os_walk sample_tree "./src")
  /\ collected_paths sample_tree_reordered "./src"
     = collected_paths sample_tree "./src"
  /\ file_text (fs_after r') "merged_source_dump.txt"
     = file_text (fs_after r) "merged_source_dump.txt".
Proof.
  cbv zeta.
  split; [repeat split; vm_compute; discriminate|].
  destruct (enumeration_order_does_not_matter
              unflushed sample_tree sample_tree_reordered
              "./src" "merged_source_dump.txt" eq_refl eq_refl eq_refl)
    as [P D].
  split; [exact P|].
  apply D; [vm_compute; discriminate | vm_compute; discriminate|].
  left. reflexivity.
Defined.

(** X10. After a run that returns, every collected path has its block in
    the document: the document holds, for each of them, the blank line, the
    line "===== FILE: <path> =====" and the blank line of its delimiter. *)
Theorem every_collected_path_has_its_delimiter_in_the_document
        (peek : string -> string + string) (fs : filesystem)
        (root_dir output_file v p : string) :
  let r := collect_source_files peek fs (Some root_dir) (Some output_file) in
  result r = Returned v ->
  In p (collected_paths fs root_dir) ->
  exists doc,
    file_text (fs_after r) output_file = Some doc
    /\ contains doc (nl ++ nl ++ "===== FILE: " ++ p ++ " =====" ++ nl ++ nl)
       = true.
Proof.
  intros r Hr Hp. apply in_split in Hp. destruct Hp as [before [after P]].
  destruct (returned_inv peek fs root_dir output_file v Hr)
    as [_ [_ [fs_open [out [O _]]]]].
  destruct (document_spec peek fs root_dir output_file fs_open out v Hr O)
    as [D _].
  fold r in D. rewrite D, P, reads_app.
  rewrite blocks_app by (now rewrite length_reads).
  cbn [reads blocks]. eexists. split; [reflexivity|].
  apply StrFacts.contains_occurrence.
Qed.

Lemma every_collected_path_has_its_delimiter_in_the_document_witness :
  let r := collect_source_files unflushed sample_tree
             (Some "./src") (Some "merged_source_dump.txt") in
  (result r = Returned "merged_source_dump.txt"
   /\ In "./src/b.md" (collected_paths sample_tree "./src"))
  /\ exists doc,
       file_text (fs_after r) "merged_source_dump.txt" = Some doc
       /\ contains doc (nl ++ nl ++ "===== FILE: ./src/b.md =====" ++ nl ++ nl)
          = true.
Proof.
  cbv zeta.
  assert (H : In "./src/b.md" (collected_paths sample_tree "./src"))
    by (vm_compute; tauto).
  split; [split; [reflexivity | exact H]|].
  exact (every_collected_path_has_its_delimiter_in_the_document
           unflushed sample_tree "./src" "merged_source_dump.txt"
           "merged_source_dump.txt" "./src/b.md" eq_refl H).
Defined.
